(** * InspireMusic: the token samplers of [inspiremusic/utils/common.py]

    A shallow embedding of the sampling routines ([nucleus_sampling],
    [random_sampling], [topk_sampling], [ras_sampling], [caras_sampling],
    [relieve_repetition], [keep_rhythm], [keep_harmony],
    [top_p_sampling_with_constraints]) and the properties the specification
    states about them.

    Numeric model.  A tensor of weights is a list of real numbers: float
    rounding is idealised away.  The one non-finite value the module builds
    on purpose, [float('-inf')] in [topk_sampling], is kept as the
    constructor [NegInf] of [score].  Where float arithmetic would leave the
    reals by accident (a division by a zero sum, a power with no real
    value) the model stops with the marker [NonFinite]: the theorems below
    speak about returned results and about the Python exceptions that are
    raised before such a point.

    Randomness.  The process-wide generators are explicit state: a stream of
    uniform variates in [0,1) for torch and a stream of raw naturals for
    Python's [random].  Every sampler is a function of that state. *)

From Stdlib Require Import String.
From Stdlib Require Import Reals Lra List ZArith Lia Bool Permutation Sorted.
Import ListNotations.
Open Scope R_scope.

(** ** Results, exceptions and the random state *)

(** The Python exceptions the modelled code can raise, plus [NonFinite]. *)
Inductive exn : Type :=
| ZeroDivisionError   (* Python: 1 / 0 *)
| IndexError          (* indexing out of range, random.choice on [] *)
| AttributeError      (* int has no attribute sum *)
| RuntimeError        (* torch: topk out of range, bad multinomial, bool(tensor) *)
| NonFinite.          (* the tensor now holds inf or nan: outside the model *)

Inductive result (A : Type) : Type :=
| Ok (a : A)
| Err (e : exn).

Arguments Ok {A} a.
Arguments Err {A} e.

Record RandomState : Type := mkRandomState {
  torch_stream : nat -> R;    (* uniform variates torch will draw *)
  py_stream : nat -> nat      (* raw draws of Python's random module *)
}.

Definition advance_torch (s : RandomState) : RandomState :=
  mkRandomState (fun n => torch_stream s (S n)) (py_stream s).

Definition advance_py (s : RandomState) : RandomState :=
  mkRandomState (torch_stream s) (fun n => py_stream s (S n)).

(** State-and-exception monad of the samplers. *)
Definition M (A : Type) : Type := RandomState -> result (A * RandomState).

Definition ret {A} (a : A) : M A := fun s => Ok (a, s).

Definition raise {A} (e : exn) : M A := fun _ => Err e.

Definition bind {A B} (c : M A) (k : A -> M B) : M B :=
  fun s => match c s with
           | Ok (a, s') => k a s'
           | Err e => Err e
           end.

Definition lift {A} (r : result A) : M A :=
  fun s => match r with
           | Ok a => Ok (a, s)
           | Err e => Err e
           end.

Notation "x <- c ;; k" := (bind c (fun x => k))
  (at level 61, c at next level, right associativity).

(** ** Tensors *)

(** A score is a real number or the sentinel [float('-inf')]. *)
Inductive score : Type :=
| NegInf
| Fin (r : R).

Definition Rltb (x y : R) : bool := if Rlt_dec x y then true else false.
Definition Rleb (x y : R) : bool := if Rle_dec x y then true else false.
Definition Reqb (x y : R) : bool := if Req_dec_T x y then true else false.

Definition score_ltb (a b : score) : bool :=
  match a, b with
  | NegInf, NegInf => false
  | NegInf, Fin _ => true
  | Fin _, NegInf => false
  | Fin x, Fin y => Rltb x y
  end.

(** exp, with exp(-inf) = 0. *)
Definition score_exp (s : score) : R :=
  match s with
  | NegInf => 0
  | Fin r => exp r
  end.

(** [t.sum()] *)
Definition tensor_sum (t : list R) : R := fold_right Rplus 0 t.

(** [torch.cumsum(t, dim=0)] *)
Fixpoint cumsum_from (acc : R) (t : list R) : list R :=
  match t with
  | [] => []
  | x :: t' => (acc + x) :: cumsum_from (acc + x) t'
  end.

Definition cumsum (t : list R) : list R := cumsum_from 0 t.

(** Entries paired with their positions, from position [i] on. *)
Fixpoint enumerate_from {A} (i : nat) (t : list A) : list (A * nat) :=
  match t with
  | [] => []
  | x :: t' => (x, i) :: enumerate_from (S i) t'
  end.

Definition enumerate {A} (t : list A) : list (A * nat) := enumerate_from 0 t.

(** [t.sort(descending=True, stable=True)]: values with their original
    indices; an entry is placed before the first entry that is not strictly
    greater, so equal entries keep their original order. *)
Fixpoint insert_desc {A} (ltb : A -> A -> bool) (x : A * nat)
         (l : list (A * nat)) : list (A * nat) :=
  match l with
  | [] => [x]
  | y :: l' => if ltb (fst x) (fst y) then y :: insert_desc ltb x l'
               else x :: y :: l'
  end.

Definition sort_desc {A} (ltb : A -> A -> bool) (t : list A) : list (A * nat) :=
  fold_right (insert_desc ltb) [] (enumerate t).

(** [t.softmax(dim=0)].  A non-empty tensor with no finite entry gives nan. *)
Definition softmax (t : list score) : result (list R) :=
  let e := map score_exp t in
  let z := tensor_sum e in
  match t with
  | [] => Ok []
  | _ :: _ => if Req_dec_T z 0 then Err NonFinite
              else Ok (map (fun v => v / z) e)
  end.

(** The bucket of the cumulative distribution a uniform variate falls in:
    the first one whose upper end is at least [u]; the last bucket takes
    whatever is left. *)
Fixpoint find_bucket (u : R) (cum : list R) : nat :=
  match cum with
  | [] => 0%nat
  | c :: rest =>
      match rest with
      | [] => 0%nat
      | _ :: _ => if Rleb u c then 0%nat else S (find_bucket u rest)
      end
  end.

(** [p.multinomial(1, replacement=True)]: torch rejects negative weights
    and a sum that is not positive (an empty tensor included), normalises
    by the sum and inverts the cumulative distribution at one uniform
    variate. *)
Definition multinomial (p : list R) : M nat :=
  fun s =>
    if existsb (fun x => Rltb x 0) p then Err RuntimeError
    else if Rleb (tensor_sum p) 0 then Err RuntimeError
    else Ok (find_bucket (torch_stream s 0 * tensor_sum p) (cumsum p),
             advance_torch s).

(** [torch.topk(t, k)]: the [k] largest entries with their indices; raises
    when [k] is not within [0, len(t)]. *)
Definition topk (t : list score) (k : Z) : result (list (score * nat)) :=
  if ((k <? 0)%Z || (Z.of_nat (List.length t) <? k)%Z)%bool then Err RuntimeError
  else Ok (firstn (Z.to_nat k) (sort_desc score_ltb t)).

Fixpoint set_nth {A} (i : nat) (v : A) (l : list A) : list A :=
  match l, i with
  | [], _ => []
  | _ :: l', O => v :: l'
  | x :: l', S i' => x :: set_nth i' v l'
  end.

(** [base.scatter_(-1, indices, values)] *)
Definition scatter {A} (base : list A) (src : list (A * nat)) : list A :=
  fold_left (fun acc vi => set_nth (snd vi) (fst vi) acc) src base.

(** ** Python lists *)

(** [l[start:]] with Python's treatment of a negative or too large start. *)
Definition slice_from {A} (l : list A) (start : Z) : list A :=
  let n := Z.of_nat (List.length l) in
  let s := if (start <? 0)%Z then Z.max (start + n) 0 else Z.min start n in
  skipn (Z.to_nat s) l.

(** [t[i]] position for a Python integer index: negative indices count from
    the end. *)
Definition py_index (n : nat) (i : Z) : result nat :=
  if (0 <=? i)%Z then
    if (i <? Z.of_nat n)%Z then Ok (Z.to_nat i) else Err IndexError
  else
    if (- Z.of_nat n <=? i)%Z then Ok (Z.to_nat (Z.of_nat n + i))
    else Err IndexError.

(** ** The samplers *)

(** [random_sampling(weighted_scores, decoded_tokens)] *)
Definition random_sampling (weighted_scores : list score)
           (decoded_tokens : list Z) : M nat :=
  p <- lift (softmax weighted_scores) ;;
  multinomial p.

(** The loop of [nucleus_sampling]: walks the sorted entries, and collects
    one while [cum_prob < top_p and len(prob) < top_k]; otherwise breaks. *)
Fixpoint nucleus_loop (top_p : R) (top_k : Z) (sorted : list (R * nat))
         (cum_prob : R) (prob : list R) (indices : list nat)
  : list R * list nat :=
  match sorted with
  | [] => (prob, indices)
  | (v, i) :: rest =>
      if (Rltb cum_prob top_p && (Z.of_nat (List.length prob) <? top_k)%Z)%bool
      then nucleus_loop top_p top_k rest (cum_prob + v) (prob ++ [v]) (indices ++ [i])
      else (prob, indices)
  end.

(** [prob] and [indices] of [nucleus_sampling] when its loop is left. *)
Definition nucleus_candidates (weighted_scores : list score) (top_p : R)
           (top_k : Z) : result (list R * list nat) :=
  match softmax weighted_scores with
  | Ok p => Ok (nucleus_loop top_p top_k (sort_desc Rltb p) 0 [] [])
  | Err e => Err e
  end.

(** [nucleus_sampling(weighted_scores, top_p, top_k)] *)
Definition nucleus_sampling (weighted_scores : list score) (top_p : R)
           (top_k : Z) : M nat :=
  c <- lift (nucleus_candidates weighted_scores top_p top_k) ;;
  j <- multinomial (fst c) ;;
  match nth_error (snd c) j with
  | Some i => ret i
  | None => raise IndexError
  end.

(** [topk_sampling(weighted_scores, decoded_tokens, top_k)] *)
Definition topk_sampling (weighted_scores : list score)
           (decoded_tokens : list Z) (top_k : Z) : M nat :=
  let zeros := repeat NegInf (List.length weighted_scores) in
  vi <- lift (topk weighted_scores top_k) ;;
  random_sampling (scatter zeros vi) decoded_tokens.

(** [(torch.tensor(window) == top_ids).sum().item()] *)
Definition rep_count (window : list Z) (top_ids : nat) : nat :=
  List.length (filter (fun t => (t =? Z.of_nat top_ids)%Z) window).

(** [ras_sampling(weighted_scores, decoded_tokens, top_p, top_k, win_size, tau_r)] *)
Definition ras_sampling (weighted_scores : list score) (decoded_tokens : list Z)
           (top_p : R) (top_k : Z) (win_size : Z) (tau_r : R) : M nat :=
  top_ids <- nucleus_sampling weighted_scores top_p top_k ;;
  let rep_num := rep_count (slice_from decoded_tokens (- win_size)) top_ids in
  if Rleb (IZR win_size * tau_r) (INR rep_num)
  then random_sampling weighted_scores decoded_tokens
  else ret top_ids.

(** [caras_sampling]: its first argument is the pair
    (weighted_scores, cfg_weighted_scores). *)
Definition caras_sampling (weighted_scores : list score * list score)
           (decoded_tokens : list Z)
           (top_p : R) (top_k : Z) (win_size : Z) (tau_r : R) : M nat :=
  let (weighted_scores, cfg_weighted_scores) := weighted_scores in
  top_ids <- nucleus_sampling weighted_scores top_p top_k ;;
  let rep_num := rep_count (slice_from decoded_tokens (- win_size)) top_ids in
  if Rleb (IZR win_size * tau_r) (INR rep_num)
  then random_sampling cfg_weighted_scores decoded_tokens
  else ret top_ids.

(** ** Score transform *)

(** [relieve_repetition(weighted_scores, recent_tokens, repetition_penalty)]:
    one pass over [recent_tokens], dividing the entry a token indexes when
    it is positive. *)
Fixpoint relieve_repetition (weighted_scores : list R) (recent_tokens : list Z)
         (repetition_penalty : R) : result (list R) :=
  match recent_tokens with
  | [] => Ok weighted_scores
  | token :: rest =>
      match py_index (List.length weighted_scores) token with
      | Err e => Err e
      | Ok i =>
          let w := nth i weighted_scores 0 in
          if Rltb 0 w then
            if Req_dec_T repetition_penalty 0 then Err NonFinite
            else relieve_repetition
                   (set_nth i (w / repetition_penalty) weighted_scores)
                   rest repetition_penalty
          else relieve_repetition weighted_scores rest repetition_penalty
      end
  end.

(** [x ** e] on one entry, where it has a real value. *)
Definition float_pow (x e : R) : result R :=
  if Rlt_dec 0 x then Ok (Rpower x e)
  else if Req_dec_T x 0 then
         if Rlt_dec 0 e then Ok 0
         else if Req_dec_T e 0 then Ok 1
              else Err NonFinite
       else
         let z := Int_part e in
         if Req_dec_T e (IZR z) then Ok (powerRZ x z) else Err NonFinite.

(** [t ** e] *)
Fixpoint tensor_pow (t : list R) (e : R) : result (list R) :=
  match t with
  | [] => Ok []
  | x :: t' =>
      match float_pow x e, tensor_pow t' e with
      | Ok y, Ok r => Ok (y :: r)
      | Err err, _ => Err err
      | _, Err err => Err err
      end
  end.

(** [t / d] *)
Definition tensor_div (t : list R) (d : R) : result (list R) :=
  if Req_dec_T d 0 then Err NonFinite else Ok (map (fun x => x / d) t).

(** [torch.where(mask)[0][0]]: the first position that satisfies the mask;
    IndexError when there is none. *)
Fixpoint first_index {A} (f : A -> bool) (l : list A) : option nat :=
  match l with
  | [] => None
  | x :: l' => if f x then Some 0%nat
               else match first_index f l' with
                    | Some i => Some (S i)
                    | None => None
                    end
  end.

Definition first_where {A} (f : A -> bool) (l : list A) : result nat :=
  match first_index f l with
  | Some i => Ok i
  | None => Err IndexError
  end.

(** ** Constraint hooks *)

(** The music-theory lookups the module calls but does not define. *)
Class MusicTheory : Type := {
  get_allowed_durations : string -> list Z;
  get_allowed_notes : string -> list Z
}.

(** What the name [next_token] of the hooks can be bound to: the caller
    passes a tensor, [random.choice] gives back an integer. *)
Inductive pyobj : Type :=
| Tensor (t : list R)
| Int (z : Z).

(** Truth value of [a == o] for an integer [a]: a tensor compares
    elementwise, and only a one-element tensor has a truth value. *)
Definition eq_truth (a : Z) (o : pyobj) : result bool :=
  match o with
  | Int z => Ok (a =? z)%Z
  | Tensor [x] => Ok (Reqb x (IZR a))
  | Tensor _ => Err RuntimeError
  end.

(** [o in l] on a Python list of integers. *)
Fixpoint py_in (o : pyobj) (l : list Z) : result bool :=
  match l with
  | [] => Ok false
  | a :: l' =>
      match eq_truth a o with
      | Err e => Err e
      | Ok true => Ok true
      | Ok false => py_in o l'
      end
  end.

(** [random.choice(l)] *)
Definition random_choice (l : list Z) : M Z :=
  fun s =>
    match l with
    | [] => Err IndexError
    | _ :: _ => Ok (nth (py_stream s 0 mod List.length l) l 0%Z, advance_py s)
    end.

(** [keep_rhythm(next_token, current_time_signature)] *)
Definition keep_rhythm `{MusicTheory} (next_token : pyobj)
           (current_time_signature : string) : M pyobj :=
  let allowed_durations := get_allowed_durations current_time_signature in
  b <- lift (py_in next_token allowed_durations) ;;
  if negb b then
    c <- random_choice allowed_durations ;; ret (Int c)
  else ret next_token.

(** [keep_harmony(next_token, current_chord)] *)
Definition keep_harmony `{MusicTheory} (next_token : pyobj)
           (current_chord : string) : M pyobj :=
  let allowed_notes := get_allowed_notes current_chord in
  b <- lift (py_in next_token allowed_notes) ;;
  if negb b then
    c <- random_choice allowed_notes ;; ret (Int c)
  else ret next_token.

(** Truth value of an optional context: [None] and the empty string are
    false. *)
Definition truthy (c : option string) : option string :=
  match c with
  | Some EmptyString => None
  | Some s => Some s
  | None => None
  end.

(** [o /= o.sum()] *)
Definition normalize (o : pyobj) : result (list R) :=
  match o with
  | Tensor t => tensor_div t (tensor_sum t)
  | Int _ => Err AttributeError
  end.

(** [top_p_sampling_with_constraints]; an empty [recent_tokens] stands for
    both [None] and the empty list, which the code treats alike. *)
Definition top_p_sampling_with_constraints `{MusicTheory}
           (weighted_scores : list R) (decoded_tokens : list Z)
           (top_p temperature : R)
           (current_chord current_time_signature : option string)
           (recent_tokens : list Z) : M nat :=
  e <- (if Req_dec_T temperature 0 then raise ZeroDivisionError
        else ret (1 / temperature)) ;;
  weighted_scores <- lift (tensor_pow weighted_scores e) ;;
  weighted_scores <- lift (tensor_div weighted_scores (tensor_sum weighted_scores)) ;;
  weighted_scores <- lift (match recent_tokens with
                           | [] => Ok weighted_scores
                           | _ :: _ => relieve_repetition weighted_scores
                                         recent_tokens 1.2
                           end) ;;
  let sorted_weighted_scores := map fst (sort_desc Rltb weighted_scores) in
  let cumulative_weighted_scores := cumsum sorted_weighted_scores in
  cutoff_index <- lift (first_where (fun c => Rleb top_p c)
                                    cumulative_weighted_scores) ;;
  let selected_weighted_scores :=
    Tensor (firstn (cutoff_index + 1) sorted_weighted_scores) in
  selected_weighted_scores <-
    match truthy current_chord with
    | Some chord => keep_harmony selected_weighted_scores chord
    | None => ret selected_weighted_scores
    end ;;
  selected_weighted_scores <-
    match truthy current_time_signature with
    | Some sig => keep_rhythm selected_weighted_scores sig
    | None => ret selected_weighted_scores
    end ;;
  selected_weighted_scores <- lift (normalize selected_weighted_scores) ;;
  random_sampling (map Fin selected_weighted_scores) decoded_tokens.

(** ** The other utilities of the module *)

(** Exceptions of the utilities below. *)
Inductive util_exn : Type :=
| ValueError           (* max of an empty list *)
| AssertionError       (* a failed assert *)
| ViewError            (* torch: view to a shape of another size *)
| EmptyReduction       (* torch: argmax over a dimension of size 0 *)
| BroadcastError.      (* torch: sizes that do not broadcast *)

Inductive checked (A : Type) : Type :=
| Done (a : A)
| Raised (e : util_exn).

Arguments Done {A} a.
Arguments Raised {A} e.


(** [row[:len(x)] = x] on one row of the padded batch. *)
Definition assign_prefix {A} (row x : list A) : list A :=
  x ++ skipn (List.length x) row.

(** [pad_list(xs, pad_value)] on a batch of rank-1 tensors (the branch
    [ndim == 1]): the result is filled with [pad_value] and the rows are
    then overwritten one by one. *)
Definition pad_list (xs : list (list R)) (pad_value : R)
  : checked (list (list R)) :=
  match xs with
  | [] => Raised ValueError
  | _ :: _ =>
      let max_len := fold_right Nat.max 0%nat (map (@List.length R) xs) in
      let batchs := List.length xs in
      let pad_res := repeat (repeat pad_value max_len) batchs in
      Done (fold_left
              (fun res i => set_nth i (assign_prefix (nth i res []) (nth i xs [])) res)
              (seq 0 batchs) pad_res)
  end.

(** The dtypes a tensor can have, as far as [mask_to_bias] tells them apart. *)
Inductive dtype : Type :=
| torch_bool
| torch_float32
| torch_bfloat16
| torch_float16
| torch_float64
| torch_int64.

(** A rank-1 tensor with its dtype: booleans, or numbers. *)
Inductive typed_tensor : Type :=
| BoolTensor (values : list bool)
| NumTensor (d : dtype) (values : list R).

(** [torch.finfo(dtype).min] for the three dtypes [mask_to_bias] accepts. *)
Definition finfo_min (d : dtype) : R :=
  match d with
  | torch_float32 => - ((2 - / 2 ^ 23) * 2 ^ 127)
  | torch_bfloat16 => - ((2 - / 2 ^ 7) * 2 ^ 127)
  | torch_float16 => - 65504
  | _ => 0
  end.

Definition bias_dtype (d : dtype) : bool :=
  match d with
  | torch_float32 | torch_bfloat16 | torch_float16 => true
  | _ => false
  end.

(** [mask_to_bias(mask, dtype)] *)
Definition mask_to_bias (mask : typed_tensor) (d : dtype) : checked (list R) :=
  match mask with
  | BoolTensor values =>
      if bias_dtype d then
        Done (map (fun b : bool => (1 - (if b then 1 else 0)) * finfo_min d) values)
      else Raised AssertionError
  | NumTensor _ _ => Raised AssertionError
  end.

(** A rank-2 tensor: its rows and its second dimension (which a tensor has
    even when it has no row). *)
Record matrix (A : Type) : Type := mk_matrix {
  mrows : list (list A);
  mcols : nat
}.

Arguments mk_matrix {A} mrows mcols.
Arguments mrows {A} m.
Arguments mcols {A} m.

(** The rows of a tensor all have its second dimension. *)
Definition well_shaped {A} (m : matrix A) : Prop :=
  Forall (fun r => List.length r = mcols m) (mrows m).

(** [row.argmax()]: the position of the first maximal entry. *)
Fixpoint argmax_from (best_i : nat) (best : R) (i : nat) (row : list R) : nat :=
  match row with
  | [] => best_i
  | x :: row' => if Rltb best x then argmax_from i x (S i) row'
                 else argmax_from best_i best (S i) row'
  end.

Definition argmax (row : list R) : nat :=
  match row with
  | [] => 0%nat
  | x :: row' => argmax_from 0 x 1 row'
  end.

(** What [th_accuracy] returns: a number, or nan for 0 / 0. *)
Inductive ratio : Type :=
| Value (r : R)
| NaN.

(** [(pred.masked_select(mask) == target.masked_select(mask)).sum()] and
    [mask.sum()] over the flattened predictions and targets. *)
Fixpoint count_hits (ignore_label : Z) (preds : list nat) (targets : list Z)
  : nat * nat :=
  match preds, targets with
  | p :: preds', t :: targets' =>
      let (numerator, denominator) := count_hits ignore_label preds' targets' in
      if (t =? ignore_label)%Z then (numerator, denominator)
      else if (Z.of_nat p =? t)%Z then (S numerator, S denominator)
           else (numerator, S denominator)
  | _, _ => (0%nat, 0%nat)
  end.

(** [th_accuracy(pad_outputs, pad_targets, ignore_label)]: [pad_outputs] is
    (B * Lmax, D), [pad_targets] is (B, Lmax). *)
Definition th_accuracy (pad_outputs : matrix R) (pad_targets : matrix Z)
           (ignore_label : Z) : checked ratio :=
  let b := List.length (mrows pad_targets) in
  let lmax := mcols pad_targets in
  let d := mcols pad_outputs in
  if negb (List.length (mrows pad_outputs) * d =? b * lmax * d)%nat
  then Raised ViewError
  else if (d =? 0)%nat then Raised EmptyReduction
  else
    let pad_pred := map argmax (mrows pad_outputs) in
    let (numerator, denominator) :=
      count_hits ignore_label pad_pred (concat (mrows pad_targets)) in
    Done (if (denominator =? 0)%nat then NaN
          else Value (INR numerator / INR denominator)).

(** The longest length of a batch, the [max_len] of [pad_list]. *)
Definition max_len (xs : list (list R)) : nat :=
  fold_right Nat.max 0%nat (map (@List.length R) xs).

(** A rank-3 tensor (batch, channel, frame): its shape and its entries. *)
Record tensor3 : Type := mk_tensor3 {
  dim0 : nat;
  dim1 : nat;
  dim2 : nat;
  entry : nat -> nat -> nat -> R
}.

(** Size of the broadcast of two sizes along one dimension; torch raises
    when they differ and neither is 1. *)
Definition broadcast (m n : nat) : option nat :=
  if (m =? n)%nat then Some m
  else if (m =? 1)%nat then Some n
       else if (n =? 1)%nat then Some m
            else None.

(** Position read in an operand of size [m] for position [i] of a
    broadcast result. *)
Definition at_size (m i : nat) : nat := if (m =? 1)%nat then 0%nat else i.

(** A value of size [r] can be assigned to a slice of size [m]. *)
Definition expands_to (r m : nat) : bool := ((r =? m) || (r =? 1))%nat.

(** [fade_in_out(fade_in_mel, fade_out_mel, window)]: the first
    [mel_overlap_len] frames of [fade_in_mel] are replaced by their
    cross-fade with the last [mel_overlap_len] frames of [fade_out_mel]. *)
Definition fade_in_out (fade_in_mel fade_out_mel : tensor3) (window : list R)
  : checked tensor3 :=
  let mel_overlap_len := (List.length window / 2)%nat in
  (* fade_in_mel[:, :, :mel_overlap_len] and window[:mel_overlap_len] *)
  let n_in := Nat.min mel_overlap_len (dim2 fade_in_mel) in
  let n_w1 := mel_overlap_len in
  (* fade_out_mel[:, :, -mel_overlap_len:] (with -0 the whole axis) and
     window[mel_overlap_len:] *)
  let n_out := if (mel_overlap_len =? 0)%nat then dim2 fade_out_mel
               else Nat.min mel_overlap_len (dim2 fade_out_mel) in
  let first_out := (dim2 fade_out_mel - n_out)%nat in
  let n_w2 := (List.length window - mel_overlap_len)%nat in
  match broadcast n_in n_w1, broadcast n_out n_w2 with
  | Some p1, Some p2 =>
      match broadcast (dim0 fade_in_mel) (dim0 fade_out_mel),
            broadcast (dim1 fade_in_mel) (dim1 fade_out_mel),
            broadcast p1 p2 with
      | Some r0, Some r1, Some r2 =>
          if (expands_to r0 (dim0 fade_in_mel)
              && expands_to r1 (dim1 fade_in_mel)
              && expands_to r2 n_in)%bool
          then
            Done (mk_tensor3
                    (dim0 fade_in_mel) (dim1 fade_in_mel) (dim2 fade_in_mel)
                    (fun b c i =>
                       if (i <? n_in)%nat then
                         let k1 := at_size p1 (at_size r2 i) in
                         let k2 := at_size p2 (at_size r2 i) in
                         entry fade_in_mel b c (at_size n_in k1)
                         * nth (at_size n_w1 k1) window 0
                         + entry fade_out_mel
                                 (at_size (dim0 fade_out_mel) b)
                                 (at_size (dim1 fade_out_mel) c)
                                 (first_out + at_size n_out k2)
                           * nth (mel_overlap_len + at_size n_w2 k2) window 0
                       else entry fade_in_mel b c i))
          else Raised BroadcastError
      | _, _, _ => Raised BroadcastError
      end
  | _, _ => Raised BroadcastError
  end.

(** ** The specification's wording, for comparison with the code *)

(** The last [n] entries of a history. *)
Definition last_entries {A} (n : nat) (l : list A) : list A :=
  skipn (List.length l - n) l.

(** Occurrences of a token id in a list of Python integers. *)
Definition occurrences (candidate : nat) (l : list Z) : nat :=
  count_occ Z.eq_dec l (Z.of_nat candidate).

(** The Repetition Guard as section 4.5 words it: propose a candidate, count
    it in the last [win_size] history entries, and fall back when the count
    is at least [win_size * tau_r]. *)
Definition repetition_guard (propose fallback : M nat) (history : list Z)
           (win_size : nat) (tau_r : R) : M nat :=
  candidate <- propose ;;
  if Rle_dec (INR win_size * tau_r)
             (INR (occurrences candidate (last_entries win_size history)))
  then fallback
  else ret candidate.

(** The repetition penalty as section 4.1 words it: an entry is divided by
    the penalty, once, when its index is in the window and it is positive. *)
Definition relieve_repetition_spec (weights : list R) (window : list Z)
           (penalty : R) : list R :=
  map (fun wi => if (existsb (Z.eqb (Z.of_nat (snd wi))) window
                     && Rltb 0 (fst wi))%bool
                 then fst wi / penalty else fst wi)
      (enumerate weights).

(** ** Order and mass of sorted entries *)

(** [a] may stand before [b]: its value is larger, or the values are equal
    and [a] came first in the original tensor. *)
Definition before (a b : R * nat) : Prop :=
  fst b < fst a \/ (fst a = fst b /\ (snd a < snd b)%nat).

(** Probability mass of a list of (value, index) entries. *)
Definition mass (l : list (R * nat)) : R := tensor_sum (map fst l).

(** No entry is smaller than one that stands after it. *)
Definition not_below (a b : score * nat) : Prop :=
  score_ltb (fst a) (fst b) = false.

(** One pass of the loop of [relieve_repetition] on position [i], for a
    penalty that is not 0. *)
Definition relieve_step (ws : list R) (i : nat) (penalty : R) : list R :=
  if Rltb 0 (nth i ws 0) then set_nth i (nth i ws 0 / penalty) ws else ws.

(** ** Concrete inputs used in the examples *)

(** A random state whose every draw is 0. *)
Definition zero_state : RandomState :=
  mkRandomState (fun _ => 0) (fun _ => 0%nat).

(** A lookup that allows notes 0 and 1 for every chord and durations 0 and 1
    for every time signature. *)
Definition two_notes : MusicTheory :=
  {| get_allowed_durations := fun _ => [0%Z; 1%Z];
     get_allowed_notes := fun _ => [0%Z; 1%Z] |}.

(** A random state whose every variate is 1/2. *)
Definition half_state : RandomState :=
  mkRandomState (fun _ => 1 / 2) (fun _ => 0%nat).


(** One batch, one channel, two frames: of value 1, and of value 3. *)
Definition low_mel : tensor3 := mk_tensor3 1 1 2 (fun _ _ _ => 1).

Definition high_mel : tensor3 := mk_tensor3 1 1 2 (fun _ _ _ => 3).

(** Scores of two positions over two classes, and targets for them of
    which the second is the ignore label -1. *)
Definition two_outputs : matrix R := mk_matrix [[0; 1]; [1; 0]] 2.

Definition one_output : matrix R := mk_matrix [[0; 1]] 2.

Definition two_targets : matrix Z := mk_matrix [[1%Z; (-1)%Z]] 2.

(** Softmax of the raw vector [0.4, 0.3, 0.2, 0.1]. *)
Definition flat_probs : list R :=
  let z := exp 0.4 + (exp 0.3 + (exp 0.2 + (exp 0.1 + 0))) in
  [exp 0.4 / z; exp 0.3 / z; exp 0.2 / z; exp 0.1 / z].

(** * Properties *)

(** ** Comparisons *)

Lemma Rltb_true (x y : R) : x < y -> Rltb x y = true.
Proof. intros H. unfold Rltb. destruct (Rlt_dec x y); [reflexivity | contradiction]. Qed.

Lemma Rltb_false (x y : R) : y <= x -> Rltb x y = false.
Proof. intros H. unfold Rltb. destruct (Rlt_dec x y); [lra | reflexivity]. Qed.

Lemma Rleb_true (x y : R) : x <= y -> Rleb x y = true.
Proof. intros H. unfold Rleb. destruct (Rle_dec x y); [reflexivity | contradiction]. Qed.

Lemma Rleb_false (x y : R) : y < x -> Rleb x y = false.
Proof. intros H. unfold Rleb. destruct (Rle_dec x y); [lra | reflexivity]. Qed.

Lemma Rltb_spec (x y : R) : Rltb x y = true <-> x < y.
Proof.
  unfold Rltb. destruct (Rlt_dec x y); split; intros; try assumption;
    try reflexivity; try discriminate; contradiction.
Qed.

Lemma Rleb_spec (x y : R) : Rleb x y = true <-> x <= y.
Proof.
  unfold Rleb. destruct (Rle_dec x y); split; intros; try assumption;
    try reflexivity; try discriminate; contradiction.
Qed.

(** ** The monad *)

Lemma bind_Ok {A B} (c : M A) (k : A -> M B) s a s' :
  c s = Ok (a, s') -> bind c k s = k a s'.
Proof. intros H. unfold bind. rewrite H. reflexivity. Qed.

Lemma bind_Err {A B} (c : M A) (k : A -> M B) s e :
  c s = Err e -> bind c k s = Err e.
Proof. intros H. unfold bind. rewrite H. reflexivity. Qed.

Lemma bind_inv {A B} (c : M A) (k : A -> M B) s b s2 :
  bind c k s = Ok (b, s2) ->
  exists a s1, c s = Ok (a, s1) /\ k a s1 = Ok (b, s2).
Proof.
  unfold bind. destruct (c s) as [[a s1] | e]; intros H; [| discriminate].
  exists a, s1. split; [reflexivity | assumption].
Qed.

Lemma lift_inv {A} (r : result A) s a s' :
  lift r s = Ok (a, s') -> r = Ok a /\ s' = s.
Proof.
  unfold lift. destruct r; intros H; inversion H; subst. split; reflexivity.
Qed.

Lemma lift_Ok {A} (r : result A) (a : A) s : r = Ok a -> lift r s = Ok (a, s).
Proof. intros ->. reflexivity. Qed.

(** One step of a monadic computation whose first action is known. *)
Tactic Notation "step" "by" tactic3(t) :=
  erewrite bind_Ok; [| solve [t]]; cbv beta.

(** ** History windows *)

Lemma rep_count_occurrences (window : list Z) (top_ids : nat) :
  rep_count window top_ids = occurrences top_ids window.
Proof.
  unfold rep_count, occurrences.
  induction window as [| t w IH]; simpl; [reflexivity |].
  destruct (Z.eq_dec t (Z.of_nat top_ids)) as [E | E].
  - apply Z.eqb_eq in E. rewrite E. simpl. now rewrite IH.
  - apply Z.eqb_neq in E. rewrite E. exact IH.
Qed.

Lemma slice_from_last_entries {A} (l : list A) (n : nat) :
  (0 < n)%nat -> slice_from l (- Z.of_nat n) = last_entries n l.
Proof.
  intros Hn. unfold slice_from, last_entries.
  destruct (Z.ltb_spec (- Z.of_nat n) 0) as [_ | H]; [| lia].
  f_equal. lia.
Qed.

Lemma guard_condition (decoded : list Z) (win_size : nat) (tau_r : R)
      (candidate : nat) :
  Rleb (IZR (Z.of_nat win_size) * tau_r)
       (INR (rep_count (slice_from decoded (- Z.of_nat win_size)) candidate))
  = if Rle_dec (INR win_size * tau_r)
               (INR (occurrences candidate (last_entries win_size decoded)))
    then true else false.
Proof.
  destruct win_size as [| w].
  - change (Z.of_nat 0) with 0%Z. simpl INR.
    rewrite Rleb_true by (rewrite Rmult_0_l; apply pos_INR).
    destruct (Rle_dec _ _) as [_ | H]; [reflexivity |].
    exfalso. apply H. rewrite Rmult_0_l. apply pos_INR.
  - rewrite slice_from_last_entries by lia.
    rewrite rep_count_occurrences, <- INR_IZR_INZ.
    reflexivity.
Qed.

(** ** Enumeration and sorting *)

Lemma enumerate_from_snd {A} (t : list A) (i : nat) :
  map snd (enumerate_from i t) = seq i (List.length t).
Proof.
  revert i. induction t as [| x t IH]; intros i; simpl; [reflexivity |].
  now rewrite IH.
Qed.

Lemma enumerate_from_length {A} (t : list A) (i : nat) :
  List.length (enumerate_from i t) = List.length t.
Proof.
  rewrite <- (length_map snd), enumerate_from_snd. apply length_seq.
Qed.

Lemma enumerate_from_nth {A} (t : list A) (i j : nat) (v : A) :
  nth_error t j = Some v -> In (v, (i + j)%nat) (enumerate_from i t).
Proof.
  revert i j. induction t as [| x t IH]; intros i j H.
  - destruct j; discriminate.
  - destruct j as [| j]; simpl in *.
    + inversion H; subst. left. f_equal. lia.
    + right. replace (i + S j)%nat with (S i + j)%nat by lia. now apply IH.
Qed.

Lemma insert_desc_perm {A} (ltb : A -> A -> bool) (x : A * nat) l :
  Permutation (insert_desc ltb x l) (x :: l).
Proof.
  induction l as [| y l IH]; simpl; [apply Permutation_refl |].
  destruct (ltb (fst x) (fst y)).
  - eapply perm_trans; [apply perm_skip, IH | apply perm_swap].
  - apply Permutation_refl.
Qed.

Lemma sort_desc_perm {A} (ltb : A -> A -> bool) (t : list A) :
  Permutation (sort_desc ltb t) (enumerate t).
Proof.
  unfold sort_desc. induction (enumerate t) as [| x l IH]; simpl.
  - apply perm_nil.
  - eapply perm_trans; [apply insert_desc_perm | apply perm_skip, IH].
Qed.

Lemma sort_desc_length {A} (ltb : A -> A -> bool) (t : list A) :
  List.length (sort_desc ltb t) = List.length t.
Proof.
  rewrite (Permutation_length (sort_desc_perm ltb t)).
  apply enumerate_from_length.
Qed.

Lemma sort_desc_index_bound {A} (ltb : A -> A -> bool) (t : list A) v i :
  In (v, i) (sort_desc ltb t) -> (i < List.length t)%nat.
Proof.
  intros H.
  apply (Permutation_in _ (sort_desc_perm ltb t)) in H.
  apply (in_map snd) in H. unfold enumerate in H.
  rewrite enumerate_from_snd in H. apply in_seq in H. simpl in H. lia.
Qed.

Lemma insert_desc_sorted (x : R * nat) (l : list (R * nat)) :
  StronglySorted before l ->
  Forall (fun y => (snd x < snd y)%nat) l ->
  StronglySorted before (insert_desc Rltb x l).
Proof.
  intros Hs Hx. induction Hs as [| y l Hs IH Hy]; simpl.
  - constructor; constructor.
  - inversion Hx as [| ? ? Hxy Hxl]; subst.
    destruct (Rltb (fst x) (fst y)) eqn:E.
    + apply Rltb_spec in E. constructor; [now apply IH |].
      apply (Permutation_Forall (Permutation_sym (insert_desc_perm Rltb x l))).
      constructor; [left; exact E | exact Hy].
    + assert (Hle : fst y <= fst x).
      { unfold Rltb in E. destruct (Rlt_dec (fst x) (fst y)); [discriminate | lra]. }
      assert (Hxy' : before x y).
      { unfold before. destruct (Rle_lt_or_eq_dec _ _ Hle) as [H | H]; [left; exact H |].
        right. split; [symmetry; exact H | exact Hxy]. }
      constructor; [constructor; assumption |].
      constructor; [exact Hxy' |].
      rewrite Forall_forall in *. intros z Hz.
      specialize (Hy z Hz). specialize (Hxl z Hz).
      unfold before in *. destruct Hy as [Hy | [Hy _]].
      * left. lra.
      * destruct (Rle_lt_or_eq_dec _ _ Hle) as [H | H]; [left; lra |].
        right. split; [congruence | exact Hxl].
Qed.

Lemma enumerate_from_sorted (t : list R) (i : nat) :
  StronglySorted before (fold_right (insert_desc Rltb) [] (enumerate_from i t))
  /\ Forall (fun y => (i <= snd y)%nat)
            (fold_right (insert_desc Rltb) [] (enumerate_from i t)).
Proof.
  revert i. induction t as [| x t IH]; intros i; simpl.
  - split; constructor.
  - destruct (IH (S i)) as [Hs Hb]. split.
    + apply insert_desc_sorted; [exact Hs |].
      eapply Forall_impl; [| exact Hb]. simpl. intros; lia.
    + apply (Permutation_Forall (Permutation_sym (insert_desc_perm Rltb _ _))).
      constructor; [simpl; lia |].
      eapply Forall_impl; [| exact Hb]. simpl. intros; lia.
Qed.

(** Descending by value, ties in their original order. *)
Lemma sort_desc_sorted (t : list R) : StronglySorted before (sort_desc Rltb t).
Proof. apply (enumerate_from_sorted t 0). Qed.

(** ** Scatter *)

Lemma set_nth_length {A} (i : nat) (v : A) l :
  List.length (set_nth i v l) = List.length l.
Proof.
  revert i. induction l as [| x l IH]; intros [| i]; simpl; try reflexivity.
  now rewrite IH.
Qed.

Lemma nth_error_set_nth_eq {A} (i : nat) (v : A) l :
  (i < List.length l)%nat -> nth_error (set_nth i v l) i = Some v.
Proof.
  revert i. induction l as [| x l IH]; intros [| i] H; simpl in *; try lia.
  - reflexivity.
  - apply IH. lia.
Qed.

Lemma nth_error_set_nth_neq {A} (i j : nat) (v : A) l :
  i <> j -> nth_error (set_nth i v l) j = nth_error l j.
Proof.
  revert i j. induction l as [| x l IH]; intros [| i] [| j] H; simpl;
    try reflexivity; try congruence.
  apply IH. congruence.
Qed.

Lemma scatter_length {A} (src : list (A * nat)) (base : list A) :
  List.length (scatter base src) = List.length base.
Proof.
  unfold scatter. revert base.
  induction src as [| vi src IH]; intros base; simpl; [reflexivity |].
  rewrite IH. apply set_nth_length.
Qed.

Lemma scatter_untouched {A} (src : list (A * nat)) (base : list A) (i : nat) :
  ~ In i (map snd src) -> nth_error (scatter base src) i = nth_error base i.
Proof.
  unfold scatter. revert base.
  induction src as [| [v j] src IH]; intros base H; simpl in *; [reflexivity |].
  rewrite IH by tauto.
  apply nth_error_set_nth_neq. tauto.
Qed.

Lemma scatter_written {A} (src : list (A * nat)) (base : list A) v i :
  NoDup (map snd src) -> In (v, i) src -> (i < List.length base)%nat ->
  nth_error (scatter base src) i = Some v.
Proof.
  revert base.
  induction src as [| [v' j] src IH]; intros base Hnd Hin Hlt; simpl in *.
  - contradiction.
  - inversion Hnd as [| ? ? Hnotin Hnd']; subst.
    destruct Hin as [E | Hin].
    + inversion E; subst.
      change (nth_error (scatter (set_nth i v base) src) i = Some v).
      rewrite scatter_untouched by assumption.
      now apply nth_error_set_nth_eq.
    + change (nth_error (scatter (set_nth j v' base) src) i = Some v).
      apply IH; try assumption. now rewrite set_nth_length.
Qed.

(** Scattering all the entries of a tensor, in any order, over a tensor of
    the same length rebuilds it. *)
Lemma scatter_all {A} (t base : list A) (src : list (A * nat)) :
  Permutation src (enumerate t) -> List.length base = List.length t ->
  scatter base src = t.
Proof.
  intros Hperm Hlen.
  apply nth_error_ext. intros i.
  destruct (nth_error t i) as [v |] eqn:Hv.
  - apply scatter_written.
    + apply (Permutation_NoDup (l := map snd (enumerate t))).
      * apply Permutation_sym, Permutation_map, Hperm.
      * unfold enumerate. rewrite enumerate_from_snd. apply seq_NoDup.
    + apply (Permutation_in _ (Permutation_sym Hperm)).
      apply (enumerate_from_nth t 0 i v Hv).
    + rewrite Hlen. apply nth_error_Some. congruence.
  - apply nth_error_None. rewrite scatter_length, Hlen.
    now apply nth_error_None.
Qed.

(** ** The categorical draw *)

Lemma cumsum_from_length (t : list R) (acc : R) :
  List.length (cumsum_from acc t) = List.length t.
Proof.
  revert acc. induction t as [| x t IH]; intros acc; simpl; [reflexivity |].
  now rewrite IH.
Qed.

Lemma find_bucket_bound (u : R) (cum : list R) :
  cum <> [] -> (find_bucket u cum < List.length cum)%nat.
Proof.
  induction cum as [| c rest IH]; intros H; [congruence |].
  simpl. destruct rest as [| c' rest']; [simpl; lia |].
  destruct (Rleb u c); [simpl; lia |].
  assert (find_bucket u (c' :: rest') < List.length (c' :: rest'))%nat
    by (apply IH; discriminate).
  simpl in *. lia.
Qed.

(** A draw that succeeds is a position of the weight tensor. *)
Lemma multinomial_bound (p : list R) s j s' :
  multinomial p s = Ok (j, s') -> (j < List.length p)%nat.
Proof.
  unfold multinomial.
  destruct (existsb _ p); [discriminate |].
  destruct (Rleb (tensor_sum p) 0) eqn:Hs; [discriminate |].
  intros H. inversion H; subst.
  rewrite <- (cumsum_from_length p 0). apply find_bucket_bound.
  destruct p; [| discriminate].
  simpl in Hs. rewrite Rleb_true in Hs by lra. discriminate.
Qed.

Lemma softmax_length (t : list score) p :
  softmax t = Ok p -> List.length p = List.length t.
Proof.
  unfold softmax. destruct t as [| x t]; intros H.
  - inversion H. reflexivity.
  - destruct (Req_dec_T _ 0); [discriminate |]. inversion H.
    simpl. now rewrite !length_map.
Qed.

Lemma tensor_sum_scale (e : list R) (z : R) :
  tensor_sum (map (fun v => v / z) e) = tensor_sum e / z.
Proof.
  induction e as [| x e IH]; simpl; [lra |].
  rewrite IH. lra.
Qed.

Lemma tensor_sum_nonneg (e : list R) :
  Forall (fun x => 0 <= x) e -> 0 <= tensor_sum e.
Proof.
  induction 1 as [| x e Hx _ IH]; simpl; lra.
Qed.

Lemma score_exp_nonneg (x : score) : 0 <= score_exp x.
Proof. destruct x; simpl; [lra | left; apply exp_pos]. Qed.

(** A softmax that has a value is a probability vector. *)
Lemma softmax_distribution (t : list score) (p : list R) :
  t <> [] -> softmax t = Ok p ->
  Forall (fun x => 0 <= x) p /\ tensor_sum p = 1.
Proof.
  intros Hne H. unfold softmax in H.
  destruct t as [| x t]; [congruence |].
  set (e := map score_exp (x :: t)) in *.
  destruct (Req_dec_T (tensor_sum e) 0) as [| Hz]; [discriminate |].
  assert (Hp : p = map (fun v => v / tensor_sum e) e)
    by (inversion H; reflexivity).
  subst p. clear H.
  assert (He : Forall (fun v => 0 <= v) e).
  { apply Forall_forall. intros v Hv. apply in_map_iff in Hv.
    destruct Hv as (y & <- & _). apply score_exp_nonneg. }
  pose proof (tensor_sum_nonneg e He) as Hs.
  assert (Hpos : 0 < tensor_sum e) by lra.
  split.
  - apply Forall_forall. intros v Hv. apply in_map_iff in Hv.
    destruct Hv as (y & <- & Hy).
    rewrite Forall_forall in He. specialize (He y Hy).
    apply Rmult_le_pos; [exact He |]. left. now apply Rinv_0_lt_compat.
  - rewrite tensor_sum_scale. now apply Rinv_r.
Qed.

Lemma softmax_fin (l : list R) :
  l <> [] -> exists p, softmax (map Fin l) = Ok p.
Proof.
  intros Hne. unfold softmax. destruct l as [| x l]; [congruence |].
  simpl map. destruct (Req_dec_T _ 0) as [E | _]; [| eexists; reflexivity].
  exfalso. simpl in E.
  pose proof (exp_pos x).
  assert (0 <= tensor_sum (map score_exp (map Fin l))).
  { apply tensor_sum_nonneg, Forall_forall. intros v Hv.
    apply in_map_iff in Hv. destruct Hv as (y & <- & _). apply score_exp_nonneg. }
  lra.
Qed.

(** When the uniform variate is 0 the draw lands in the first bucket. *)
Lemma multinomial_zero_draw (p : list R) (s : RandomState) :
  Forall (fun x => 0 <= x) p -> 0 < tensor_sum p -> torch_stream s 0 = 0 ->
  multinomial p s = Ok (0%nat, advance_torch s).
Proof.
  intros Hp Hs Hu. unfold multinomial.
  assert (Hex : existsb (fun x => Rltb x 0) p = false).
  { destruct (existsb _ p) eqn:E; [| reflexivity].
    apply existsb_exists in E. destruct E as (x & Hx & Hlt).
    rewrite Forall_forall in Hp. specialize (Hp x Hx).
    apply Rltb_spec in Hlt. lra. }
  rewrite Hex, Rleb_false by exact Hs.
  do 2 f_equal. rewrite Hu, Rmult_0_l.
  destruct p as [| x p]; [reflexivity |].
  unfold cumsum. simpl. destruct (cumsum_from (0 + x) p); [reflexivity |].
  inversion Hp; subst. rewrite Rleb_true by lra. reflexivity.
Qed.

Lemma random_sampling_bound (ws : list score) (d : list Z) s i s' :
  random_sampling ws d s = Ok (i, s') -> (i < List.length ws)%nat.
Proof.
  unfold random_sampling. intros H.
  apply bind_inv in H. destruct H as (p & s1 & Hp & Hm).
  apply lift_inv in Hp. destruct Hp as [Hp _].
  apply multinomial_bound in Hm. apply softmax_length in Hp. lia.
Qed.

Lemma random_sampling_zero_draw (l : list R) (d : list Z) (s : RandomState) :
  l <> [] -> torch_stream s 0 = 0 ->
  random_sampling (map Fin l) d s = Ok (0%nat, advance_torch s).
Proof.
  intros Hne Hu. destruct (softmax_fin l Hne) as [p Hp].
  unfold random_sampling.
  rewrite (bind_Ok _ _ _ _ _ (lift_Ok _ _ s Hp)).
  assert (Hne' : map Fin l <> []) by (destruct l; [congruence | discriminate]).
  destruct (softmax_distribution _ _ Hne' Hp) as [Hnn Hsum].
  apply multinomial_zero_draw; [exact Hnn | lra | exact Hu].
Qed.

(** ** The nucleus loop *)

(** The loop collects a prefix of the entries it walks. *)
Lemma nucleus_loop_prefix (top_p : R) (top_k : Z) (sorted : list (R * nat)) :
  forall cum_prob prob indices,
  exists m,
    (m <= List.length sorted)%nat
    /\ nucleus_loop top_p top_k sorted cum_prob prob indices
       = (prob ++ map fst (firstn m sorted), indices ++ map snd (firstn m sorted))
    /\ (forall j, (j < m)%nat ->
          cum_prob + mass (firstn j sorted) < top_p
          /\ (Z.of_nat (List.length prob + j) < top_k)%Z)
    /\ (m = List.length sorted
        \/ top_p <= cum_prob + mass (firstn m sorted)
        \/ (top_k <= Z.of_nat (List.length prob + m))%Z).
Proof.
  induction sorted as [| [v i] rest IH]; intros cum_prob prob indices.
  - exists 0%nat. simpl. rewrite !app_nil_r.
    split; [lia |]. split; [reflexivity |]. split; [intros; lia |].
    now left.
  - simpl.
    destruct (Rltb cum_prob top_p) eqn:Hp;
      [destruct (Z.ltb_spec (Z.of_nat (List.length prob)) top_k) as [Hk | Hk] |].
    + simpl.
      destruct (IH (cum_prob + v) (prob ++ [v]) (indices ++ [i]))
        as (m & Hm & Heq & Hbelow & Hstop).
      exists (S m). rewrite Heq. simpl. rewrite <- !app_assoc. simpl.
      split; [lia |]. split; [reflexivity |].
      apply Rltb_spec in Hp.
      rewrite length_app in Hbelow, Hstop. simpl in Hbelow, Hstop.
      split.
      * intros [| j] Hj; simpl.
        -- unfold mass. simpl. split; [lra | lia].
        -- destruct (Hbelow j ltac:(lia)) as [H1 H2].
           unfold mass in *. simpl. split; [lra | lia].
      * destruct Hstop as [H | [H | H]].
        -- left. lia.
        -- right. left. unfold mass in *. simpl. lra.
        -- right. right. lia.
    + exists 0%nat. simpl. rewrite !app_nil_r.
      split; [lia |]. split; [reflexivity |]. split; [intros; lia |].
      right. right. lia.
    + exists 0%nat. simpl. rewrite !app_nil_r.
      split; [lia |]. split; [reflexivity |]. split; [intros; lia |].
      right. left. unfold mass. simpl.
      unfold Rltb in Hp. destruct (Rlt_dec cum_prob top_p); [discriminate | lra].
Qed.

Lemma nucleus_loop_indices (top_p : R) (top_k : Z) (sorted : list (R * nat)) :
  forall cum_prob prob indices,
    List.length prob = List.length indices ->
    let r := nucleus_loop top_p top_k sorted cum_prob prob indices in
    List.length (fst r) = List.length (snd r)
    /\ forall i, In i (snd r) -> In i indices \/ In i (map snd sorted).
Proof.
  intros cum_prob prob indices Hlen.
  destruct (nucleus_loop_prefix top_p top_k sorted cum_prob prob indices)
    as (m & _ & Heq & _).
  simpl. rewrite Heq. simpl. split.
  - rewrite !length_app, !length_map. lia.
  - intros i Hi. apply in_app_or in Hi. destruct Hi as [Hi | Hi]; [now left |].
    right. apply in_map_iff in Hi. destruct Hi as (x & Hx & Hin).
    apply in_map_iff. exists x. split; [exact Hx |].
    rewrite <- (firstn_skipn m sorted). apply in_or_app. now left.
Qed.

(** ** Every returned token is an index of the vocabulary *)

Lemma nucleus_sampling_bound (ws : list score) (top_p : R) (top_k : Z) s i s' :
  nucleus_sampling ws top_p top_k s = Ok (i, s') -> (i < List.length ws)%nat.
Proof.
  unfold nucleus_sampling. intros H.
  apply bind_inv in H. destruct H as (c & s1 & Hc & H).
  apply lift_inv in Hc. destruct Hc as [Hc _].
  apply bind_inv in H. destruct H as (j & s2 & _ & H).
  destruct (nth_error (snd c) j) as [i' |] eqn:Hn; [| discriminate].
  inversion H; subst i' s'. apply nth_error_In in Hn.
  unfold nucleus_candidates in Hc.
  destruct (softmax ws) as [p | e] eqn:Hs; [| discriminate].
  inversion Hc; subst c.
  destruct (nucleus_loop_indices top_p top_k (sort_desc Rltb p) 0 [] [] eq_refl)
    as [_ Hin].
  destruct (Hin i Hn) as [[] | Hi].
  apply in_map_iff in Hi. destruct Hi as ([v i'] & Hx & Hi). simpl in Hx. subst i'.
  apply sort_desc_index_bound in Hi. rewrite (softmax_length _ _ Hs) in Hi.
  exact Hi.
Qed.

Lemma topk_sampling_bound (ws : list score) (d : list Z) (top_k : Z) s i s' :
  topk_sampling ws d top_k s = Ok (i, s') -> (i < List.length ws)%nat.
Proof.
  unfold topk_sampling. intros H.
  apply bind_inv in H. destruct H as (vi & s1 & _ & H).
  apply random_sampling_bound in H.
  now rewrite scatter_length, repeat_length in H.
Qed.

Lemma ras_sampling_bound (ws : list score) d top_p top_k win_size tau_r s i s' :
  ras_sampling ws d top_p top_k win_size tau_r s = Ok (i, s') ->
  (i < List.length ws)%nat.
Proof.
  unfold ras_sampling. intros H.
  apply bind_inv in H. destruct H as (c & s1 & Hc & H).
  destruct (Rleb _ _).
  - now apply random_sampling_bound in H.
  - inversion H; subst. now apply nucleus_sampling_bound in Hc.
Qed.

Lemma caras_sampling_bound (ws cfg : list score) d top_p top_k win_size tau_r
      s i s' :
  caras_sampling (ws, cfg) d top_p top_k win_size tau_r s = Ok (i, s') ->
  (i < Nat.max (List.length ws) (List.length cfg))%nat.
Proof.
  unfold caras_sampling. intros H.
  apply bind_inv in H. destruct H as (c & s1 & Hc & H).
  destruct (Rleb _ _).
  - apply random_sampling_bound in H. lia.
  - inversion H; subst. apply nucleus_sampling_bound in Hc. lia.
Qed.

Lemma tensor_pow_length (t : list R) (e : R) r :
  tensor_pow t e = Ok r -> List.length r = List.length t.
Proof.
  revert r. induction t as [| x t IH]; intros r H; simpl in H.
  - inversion H. reflexivity.
  - destruct (float_pow x e); [| discriminate].
    destruct (tensor_pow t e) as [r' |]; [| discriminate].
    inversion H. simpl. now rewrite (IH r').
Qed.

Lemma tensor_div_length (t : list R) (d : R) r :
  tensor_div t d = Ok r -> List.length r = List.length t.
Proof.
  unfold tensor_div. destruct (Req_dec_T d 0); intros H; [discriminate |].
  inversion H. apply length_map.
Qed.

Lemma relieve_repetition_length (recent : list Z) (penalty : R) :
  forall ws r, relieve_repetition ws recent penalty = Ok r ->
               List.length r = List.length ws.
Proof.
  induction recent as [| t rest IH]; intros ws r H; simpl in H.
  - inversion H. reflexivity.
  - destruct (py_index (List.length ws) t) as [i |]; [| discriminate].
    destruct (Rltb 0 (nth i ws 0)).
    + destruct (Req_dec_T penalty 0); [discriminate |].
      apply IH in H. now rewrite set_nth_length in H.
    + now apply IH in H.
Qed.

(** ** Constraint hooks *)

Lemma py_in_token (z : Z) (l : list Z) :
  py_in (Int z) l = Ok (existsb (fun a => (a =? z)%Z) l).
Proof.
  induction l as [| a l IH]; simpl; [reflexivity |].
  destruct (a =? z)%Z; [reflexivity | exact IH].
Qed.

(** The hook asked about a tensor of two or more weights cannot decide
    [next_token not in allowed]: the comparison has no truth value. *)
Lemma py_in_tensor_raises (x y : R) (t : list R) (a : Z) (l : list Z) :
  py_in (Tensor (x :: y :: t)) (a :: l) = Err RuntimeError.
Proof. reflexivity. Qed.

Section Hooks.

Context {mt : MusicTheory}.

(** A hook gives back a tensor only when it gives back its argument,
    without a draw. *)
Lemma keep_harmony_unchanged (o : pyobj) chord s t s' :
  keep_harmony o chord s = Ok (Tensor t, s') -> o = Tensor t /\ s' = s.
Proof.
  unfold keep_harmony. intros H0.
  apply bind_inv in H0 as (b & s1 & Hb & H0).
  apply lift_inv in Hb as [_ ->].
  destruct b; simpl in H0.
  - inversion H0. split; reflexivity.
  - apply bind_inv in H0 as (c & s2 & _ & H0). inversion H0.
Qed.

Lemma keep_rhythm_unchanged (o : pyobj) sig s t s' :
  keep_rhythm o sig s = Ok (Tensor t, s') -> o = Tensor t /\ s' = s.
Proof.
  unfold keep_rhythm. intros H0.
  apply bind_inv in H0 as (b & s1 & Hb & H0).
  apply lift_inv in Hb as [_ ->].
  destruct b; simpl in H0.
  - inversion H0. split; reflexivity.
  - apply bind_inv in H0 as (c & s2 & _ & H0). inversion H0.
Qed.

(** On a token the hook does what its name says: an allowed token is kept. *)
Lemma keep_harmony_keeps_allowed_token (z : Z) (chord : string)
      (s : RandomState) :
  In z (get_allowed_notes chord) ->
  keep_harmony (Int z) chord s = Ok (Int z, s).
Proof.
  intros Hin. unfold keep_harmony.
  erewrite bind_Ok; [| apply lift_Ok, py_in_token].
  assert (E : existsb (fun a => (a =? z)%Z) (get_allowed_notes chord) = true).
  { apply existsb_exists. exists z. split; [exact Hin | apply Z.eqb_refl]. }
  rewrite E. reflexivity.
Qed.

(** On a token that is not allowed, the hook picks an allowed one. *)
Lemma keep_harmony_replaces_other_token (z : Z) (chord : string)
      (s : RandomState) :
  ~ In z (get_allowed_notes chord) -> get_allowed_notes chord <> [] ->
  exists c, In c (get_allowed_notes chord)
            /\ keep_harmony (Int z) chord s = Ok (Int c, advance_py s).
Proof.
  intros Hnot Hne. unfold keep_harmony.
  set (allowed := get_allowed_notes chord) in *.
  exists (nth (py_stream s 0 mod List.length allowed) allowed 0%Z).
  split.
  - apply nth_In. apply Nat.mod_upper_bound.
    destruct allowed; [congruence | discriminate].
  - erewrite bind_Ok; [| apply lift_Ok, py_in_token].
    assert (E : existsb (fun a => (a =? z)%Z) allowed = false).
    { destruct (existsb _ allowed) eqn:E; [| reflexivity].
      apply existsb_exists in E. destruct E as (a & Ha & Heq).
      apply Z.eqb_eq in Heq. subst a. contradiction. }
    rewrite E. simpl negb. cbv iota. unfold bind, random_choice.
    destruct allowed; [congruence | reflexivity].
Qed.

Lemma top_p_sampling_with_constraints_bound
      (ws : list R) d top_p temperature chord sig recent s i s' :
  top_p_sampling_with_constraints ws d top_p temperature chord sig recent s
  = Ok (i, s') ->
  (i < List.length ws)%nat.
Proof.
  unfold top_p_sampling_with_constraints. intros H0.
  apply bind_inv in H0. destruct H0 as (e & s1 & _ & H0).
  apply bind_inv in H0. destruct H0 as (w1 & s2 & Hw1 & H0).
  apply lift_inv in Hw1. destruct Hw1 as [Hw1 _]. apply tensor_pow_length in Hw1.
  apply bind_inv in H0. destruct H0 as (w2 & s3 & Hw2 & H0).
  apply lift_inv in Hw2. destruct Hw2 as [Hw2 _]. apply tensor_div_length in Hw2.
  apply bind_inv in H0. destruct H0 as (w3 & s4 & Hw3 & H0).
  apply lift_inv in Hw3. destruct Hw3 as [Hw3 _].
  assert (Hl3 : List.length w3 = List.length w2).
  { destruct recent; [inversion Hw3; reflexivity |].
    now apply relieve_repetition_length in Hw3. }
  apply bind_inv in H0. destruct H0 as (cutoff & s5 & _ & H0).
  apply bind_inv in H0. destruct H0 as (o1 & s6 & Ho1 & H0).
  apply bind_inv in H0. destruct H0 as (o2 & s7 & Ho2 & H0).
  apply bind_inv in H0. destruct H0 as (sel & s8 & Hsel & H0).
  apply lift_inv in Hsel. destruct Hsel as [Hsel _].
  apply random_sampling_bound in H0. rewrite length_map in H0.
  destruct o2 as [t2 | z]; [| discriminate]. simpl in Hsel.
  apply tensor_div_length in Hsel.
  assert (E1 : o1 = Tensor t2).
  { destruct (truthy sig);
      [apply keep_rhythm_unchanged in Ho2 as [E _]; exact E |].
    inversion Ho2. reflexivity. }
  subst o1.
  assert (E0 : Tensor (firstn (cutoff + 1) (map fst (sort_desc Rltb w3)))
               = Tensor t2).
  { destruct (truthy chord);
      [apply keep_harmony_unchanged in Ho1 as [E _]; exact E |].
    inversion Ho1. reflexivity. }
  inversion E0 as [E].
  assert (List.length t2 <= List.length w3)%nat.
  { rewrite <- E, length_firstn, length_map, sort_desc_length. lia. }
  lia.
Qed.

(** X16.  A constraint context never changes what is returned: a call
    that returns with a context returns the same token, and leaves the same
    random state, without it. *)
Lemma constraint_context_selects_nothing
      (ws : list R) d top_p temperature chord sig recent s i s' :
  top_p_sampling_with_constraints ws d top_p temperature chord sig recent s
  = Ok (i, s') ->
  top_p_sampling_with_constraints ws d top_p temperature None None recent s
  = Ok (i, s').
Proof.
  unfold top_p_sampling_with_constraints. intros H0.
  apply bind_inv in H0 as (e & s1 & He & H0).
  step by (exact He).
  apply bind_inv in H0 as (w1 & s2 & Hw1 & H0).
  step by (exact Hw1).
  apply bind_inv in H0 as (w2 & s3 & Hw2 & H0).
  step by (exact Hw2).
  apply bind_inv in H0 as (w3 & s4 & Hw3 & H0).
  step by (exact Hw3).
  apply bind_inv in H0 as (cutoff & s5 & Hcut & H0).
  step by (exact Hcut).
  apply bind_inv in H0 as (o1 & s6 & Ho1 & H0).
  apply bind_inv in H0 as (o2 & s7 & Ho2 & H0).
  apply bind_inv in H0 as (sel & s8 & Hsel & H0).
  destruct o2 as [t2 | z];
    [| apply lift_inv in Hsel as [Hsel _]; discriminate].
  assert (E1 : o1 = Tensor t2 /\ s7 = s6).
  { destruct (truthy sig); [now apply keep_rhythm_unchanged in Ho2 |].
    inversion Ho2. split; reflexivity. }
  destruct E1 as [-> ->].
  assert (E0 : Tensor (firstn (cutoff + 1) (map fst (sort_desc Rltb w3)))
               = Tensor t2 /\ s6 = s5).
  { destruct (truthy chord); [now apply keep_harmony_unchanged in Ho1 |].
    inversion Ho1. split; reflexivity. }
  destruct E0 as [E0 ->]. rewrite E0.
  simpl truthy. cbv iota.
  step by (reflexivity).
  step by (reflexivity).
  erewrite bind_Ok by exact Hsel. exact H0.
Qed.

End Hooks.

(** ** Repetition penalty *)

Lemma nth_set_nth_eq (i : nat) (v d : R) (l : list R) :
  (i < List.length l)%nat -> nth i (set_nth i v l) d = v.
Proof.
  revert i. induction l as [| x l IH]; intros [| i] H; simpl in *; try lia.
  - reflexivity.
  - apply IH. lia.
Qed.

Lemma nth_set_nth_neq (i j : nat) (v d : R) (l : list R) :
  i <> j -> nth j (set_nth i v l) d = nth j l d.
Proof.
  revert i j. induction l as [| x l IH]; intros [| i] [| j] H; simpl;
    try reflexivity; try congruence.
  apply IH. congruence.
Qed.

Lemma tensor_sum_set_nth (i : nat) (v : R) (l : list R) :
  (i < List.length l)%nat ->
  tensor_sum (set_nth i v l) = tensor_sum l - nth i l 0 + v.
Proof.
  revert i. induction l as [| x l IH]; intros [| i] H; simpl in *; try lia.
  - lra.
  - rewrite IH by lia. lra.
Qed.

Lemma py_index_valid (n : nat) (t : Z) :
  (0 <= t < Z.of_nat n)%Z -> py_index n t = Ok (Z.to_nat t).
Proof.
  intros [H0 Hn]. unfold py_index.
  destruct (Z.leb_spec 0 t); [| lia].
  destruct (Z.ltb_spec t (Z.of_nat n)); [reflexivity | lia].
Qed.

Lemma relieve_repetition_twice :
  relieve_repetition [1; 1] [0%Z; 0%Z] 2 = Ok [1 / 2 / 2; 1].
Proof.
  simpl. unfold py_index. simpl.
  rewrite (Rltb_true 0 1) by lra.
  destruct (Req_dec_T 2 0) as [E | _]; [lra |]. simpl.
  rewrite (Rltb_true 0 (1 / 2)) by lra. reflexivity.
Qed.

(** ** The worked example of section 8 *)

Lemma exp_tenth_bounds : 1 < exp 0.1 < 1.15.
Proof.
  split.
  - pose proof (exp_ineq1 0.1 ltac:(lra)). lra.
  - assert (H : forall y, 0 < y -> 1 - y < / exp y).
    { intros y Hy. rewrite <- exp_Ropp.
      pose proof (exp_ineq1 (- y) ltac:(lra)). lra. }
    specialize (H 0.1 ltac:(lra)).
    pose proof (exp_pos 0.1) as Hpos.
    assert (Hinv : exp 0.1 * / exp 0.1 = 1) by (apply Rinv_r; lra).
    nra.
Qed.

Lemma sort_desc_descending4 (p0 p1 p2 p3 : R) :
  p3 <= p2 -> p2 <= p1 -> p1 <= p0 ->
  sort_desc Rltb [p0; p1; p2; p3]
  = [(p0, 0%nat); (p1, 1%nat); (p2, 2%nat); (p3, 3%nat)].
Proof.
  intros H32 H21 H10. unfold sort_desc, enumerate. simpl.
  rewrite (Rltb_false p2 p3) by exact H32. simpl.
  rewrite (Rltb_false p1 p2) by exact H21. simpl.
  rewrite (Rltb_false p0 p1) by exact H10. reflexivity.
Qed.

(** Four descending entries of which the first three stay below [top_p]:
    the loop takes all four. *)
Lemma nucleus_loop_takes_four (p0 p1 p2 p3 top_p : R) :
  p3 <= p2 -> p2 <= p1 -> p1 <= p0 ->
  0 < top_p -> p0 < top_p -> p0 + p1 < top_p -> p0 + p1 + p2 < top_p ->
  nucleus_loop top_p 25 (sort_desc Rltb [p0; p1; p2; p3]) 0 [] []
  = ([p0; p1; p2; p3], [0; 1; 2; 3]%nat).
Proof.
  intros H32 H21 H10 H0 H1 H2 H3.
  rewrite sort_desc_descending4 by assumption. simpl.
  rewrite (Rltb_true 0) by lra. simpl.
  rewrite (Rltb_true (0 + p0)) by lra. simpl.
  rewrite (Rltb_true (0 + p0 + p1)) by lra. simpl.
  rewrite (Rltb_true (0 + p0 + p1 + p2)) by lra. simpl.
  reflexivity.
Qed.

(** Four descending entries of which the first three reach [top_p]: the
    loop stops after the third. *)
Lemma nucleus_loop_takes_three (p0 p1 p2 p3 top_p : R) :
  p3 <= p2 -> p2 <= p1 -> p1 <= p0 ->
  0 < top_p -> p0 < top_p -> p0 + p1 < top_p -> top_p <= p0 + p1 + p2 ->
  nucleus_loop top_p 25 (sort_desc Rltb [p0; p1; p2; p3]) 0 [] []
  = ([p0; p1; p2], [0; 1; 2]%nat).
Proof.
  intros H32 H21 H10 H0 H1 H2 H3.
  rewrite sort_desc_descending4 by assumption. simpl.
  rewrite (Rltb_true 0) by lra. simpl.
  rewrite (Rltb_true (0 + p0)) by lra. simpl.
  rewrite (Rltb_true (0 + p0 + p1)) by lra. simpl.
  rewrite (Rltb_false (0 + p0 + p1 + p2)) by lra. simpl.
  reflexivity.
Qed.

Lemma softmax_flat :
  softmax [Fin 0.4; Fin 0.3; Fin 0.2; Fin 0.1] = Ok flat_probs.
Proof.
  unfold softmax, flat_probs. simpl.
  destruct (Req_dec_T _ 0) as [E | _]; [| reflexivity].
  pose proof (exp_pos 0.4). pose proof (exp_pos 0.3).
  pose proof (exp_pos 0.2). pose proof (exp_pos 0.1). lra.
Qed.

(** On the raw vector the softmax is too flat for three entries to reach
    0.8: all four are collected. *)
Lemma nucleus_candidates_flat :
  nucleus_candidates [Fin 0.4; Fin 0.3; Fin 0.2; Fin 0.1] 0.8 25
  = Ok (flat_probs, [0; 1; 2; 3]%nat).
Proof.
  unfold nucleus_candidates. rewrite softmax_flat. f_equal.
  unfold flat_probs.
  destruct exp_tenth_bounds as [Hlo Hhi].
  set (x := exp 0.1) in *.
  assert (E2 : exp 0.2 = x * x).
  { replace 0.2 with (0.1 + 0.1) by lra. now rewrite exp_plus. }
  assert (E3 : exp 0.3 = x * x * x).
  { replace 0.3 with (0.1 + 0.1 + 0.1) by lra. now rewrite !exp_plus. }
  assert (E4 : exp 0.4 = x * x * x * x).
  { replace 0.4 with (0.1 + 0.1 + 0.1 + 0.1) by lra. now rewrite !exp_plus. }
  rewrite E2, E3, E4.
  set (z := x * x * x * x + (x * x * x + (x * x + (x + 0)))).
  assert (Hx2 : x < x * x) by nra.
  assert (Hx3 : x * x < x * x * x) by nra.
  assert (Hx4 : x * x * x < x * x * x * x) by nra.
  assert (Hz : 0 < z) by (unfold z; nra).
  assert (Hiz : 0 < / z) by (now apply Rinv_0_lt_compat).
  assert (Hzz : z * / z = 1) by (apply Rinv_r; lra).
  assert (Hsum : x * x * x * x + x * x * x + x * x < 0.8 * z).
  { unfold z. nra. }
  unfold Rdiv.
  apply nucleus_loop_takes_four; try nra.
Qed.

(** On the log-probabilities of [0.4, 0.3, 0.2, 0.1] the softmax is that
    distribution and three entries are collected. *)
Lemma nucleus_candidates_log :
  nucleus_candidates [Fin (ln 0.4); Fin (ln 0.3); Fin (ln 0.2); Fin (ln 0.1)]
                     0.8 25
  = Ok ([0.4; 0.3; 0.2], [0; 1; 2]%nat).
Proof.
  assert (Hs : softmax [Fin (ln 0.4); Fin (ln 0.3); Fin (ln 0.2); Fin (ln 0.1)]
               = Ok [0.4; 0.3; 0.2; 0.1]).
  { unfold softmax. simpl. rewrite !exp_ln by lra.
    replace (0.4 + (0.3 + (0.2 + (0.1 + 0)))) with 1 by lra.
    destruct (Req_dec_T 1 0) as [E | _]; [lra |].
    do 2 f_equal; [| f_equal; [| f_equal; [| f_equal]]]; lra. }
  unfold nucleus_candidates. rewrite Hs. f_equal.
  apply nucleus_loop_takes_three; lra.
Qed.

(** ** A uniform pair of weights, evaluated *)

Lemma Rpower_one_base (e : R) : Rpower 1 e = 1.
Proof. unfold Rpower. rewrite ln_1, Rmult_0_r. apply exp_0. Qed.

Lemma tensor_pow_ones (e : R) : tensor_pow [1; 1] e = Ok [1; 1].
Proof.
  simpl. unfold float_pow.
  destruct (Rlt_dec 0 1) as [_ | H]; [| lra].
  rewrite Rpower_one_base. reflexivity.
Qed.

Lemma tensor_div_ones : tensor_div [1; 1] (tensor_sum [1; 1]) = Ok [1 / 2; 1 / 2].
Proof.
  unfold tensor_div. simpl.
  destruct (Req_dec_T _ 0) as [E | _]; [lra |].
  replace (1 + (1 + 0)) with 2 by lra. reflexivity.
Qed.

Lemma sort_desc_halves :
  sort_desc Rltb [1 / 2; 1 / 2] = [(1 / 2, 0%nat); (1 / 2, 1%nat)].
Proof.
  unfold sort_desc, enumerate. simpl.
  rewrite Rltb_false by lra. reflexivity.
Qed.

Lemma first_where_halves :
  first_where (fun c => Rleb 0.85 c) (cumsum [1 / 2; 1 / 2]) = Ok 1%nat.
Proof.
  unfold first_where, cumsum. simpl.
  rewrite Rleb_false by lra. rewrite Rleb_true by lra. reflexivity.
Qed.

Lemma normalize_halves : normalize (Tensor [1 / 2; 1 / 2]) = Ok [1 / 2; 1 / 2].
Proof.
  unfold normalize, tensor_div. simpl.
  destruct (Req_dec_T _ 0) as [E | _]; [lra |].
  replace (1 / 2 + (1 / 2 + 0)) with 1 by lra.
  do 2 f_equal; [| f_equal]; lra.
Qed.

Lemma top_p_uniform_pair (d : list Z) (t : R) :
  t <> 0 ->
  @top_p_sampling_with_constraints two_notes [1; 1] d 0.85 t None None []
                                   zero_state
  = Ok (0%nat, advance_torch zero_state).
Proof.
  intros Ht. unfold top_p_sampling_with_constraints.
  step by (destruct (Req_dec_T t 0); [contradiction | reflexivity]).
  step by (apply lift_Ok, tensor_pow_ones).
  step by (apply lift_Ok, tensor_div_ones).
  step by (apply lift_Ok; reflexivity).
  rewrite sort_desc_halves. simpl map.
  step by (apply lift_Ok, first_where_halves).
  simpl truthy. cbv iota.
  step by (reflexivity).
  step by (reflexivity).
  simpl firstn.
  step by (apply lift_Ok, normalize_halves).
  apply random_sampling_zero_draw; [discriminate | reflexivity].
Qed.

(** ** A one-entry vocabulary, evaluated *)

Lemma softmax_single : softmax [Fin 0] = Ok [1].
Proof.
  unfold softmax. simpl. rewrite exp_0.
  replace (1 + 0) with 1 by lra.
  destruct (Req_dec_T 1 0) as [E | _]; [lra |].
  do 2 f_equal. lra.
Qed.

Lemma multinomial_single (s : RandomState) :
  torch_stream s 0 = 0 -> multinomial [1] s = Ok (0%nat, advance_torch s).
Proof.
  intros Hu. apply multinomial_zero_draw; [| simpl; lra | exact Hu].
  constructor; [lra | constructor].
Qed.

Lemma nucleus_sampling_single (s : RandomState) :
  torch_stream s 0 = 0 ->
  nucleus_sampling [Fin 0] 0.8 25 s = Ok (0%nat, advance_torch s).
Proof.
  intros Hu. unfold nucleus_sampling, nucleus_candidates.
  rewrite softmax_single.
  step by (apply lift_Ok; reflexivity).
  unfold sort_desc, enumerate. simpl.
  rewrite (Rltb_true 0 0.8) by lra. simpl.
  erewrite bind_Ok; [| apply multinomial_single, Hu]. reflexivity.
Qed.

Lemma random_sampling_single (d : list Z) (s : RandomState) :
  torch_stream s 0 = 0 ->
  random_sampling [Fin 0] d s = Ok (0%nat, advance_torch s).
Proof.
  intros Hu. apply (random_sampling_zero_draw [0] d s); [discriminate | exact Hu].
Qed.

Lemma topk_sampling_single (d : list Z) (s : RandomState) :
  torch_stream s 0 = 0 ->
  topk_sampling [Fin 0] d 1 s = Ok (0%nat, advance_torch s).
Proof.
  intros Hu. unfold topk_sampling.
  step by (apply lift_Ok; reflexivity).
  apply random_sampling_single, Hu.
Qed.

Lemma ras_sampling_single (s : RandomState) :
  torch_stream s 0 = 0 ->
  ras_sampling [Fin 0] [] 0.8 25 10 0.1 s = Ok (0%nat, advance_torch s).
Proof.
  intros Hu. unfold ras_sampling.
  step by (apply nucleus_sampling_single, Hu).
  simpl. rewrite Rleb_false by lra. reflexivity.
Qed.

Lemma caras_sampling_single (s : RandomState) :
  torch_stream s 0 = 0 ->
  caras_sampling ([Fin 0], [Fin 0]) [] 0.8 25 10 0.1 s
  = Ok (0%nat, advance_torch s).
Proof.
  intros Hu. unfold caras_sampling.
  step by (apply nucleus_sampling_single, Hu).
  simpl. rewrite Rleb_false by lra. reflexivity.
Qed.

(** * Claims *)

(** C1 (as amended).  Nucleus selection applies softmax to the full vector,
    sorts the entries by descending probability with a stable sort, and
    collects the prefix of the sorted entries whose every proper prefix has
    mass below [top_p] and fewer than [top_k] entries: the prefix up to and
    including the entry that crosses [top_p], or exactly [top_k] entries, or
    the whole vector when it runs out first.  For the log-probabilities of
    [0.4, 0.3, 0.2, 0.1] with [top_p = 0.8] and [top_k = 25] the candidates
    are the three entries of probability 0.4, 0.3 and 0.2; for the raw
    vector [0.4, 0.3, 0.2, 0.1] the softmax is flatter and all four entries
    are candidates. *)
Theorem nucleus_candidates_sorted_prefix :
  (forall (ws : list score) (top_p : R) (top_k : Z),
      match softmax ws with
      | Err e => nucleus_candidates ws top_p top_k = Err e
      | Ok p =>
          let sorted := sort_desc Rltb p in
          Permutation sorted (enumerate p)
          /\ StronglySorted before sorted
          /\ exists m : nat,
              nucleus_candidates ws top_p top_k
              = Ok (map fst (firstn m sorted), map snd (firstn m sorted))
              /\ (m <= List.length ws)%nat
              /\ (forall j, (j < m)%nat ->
                     mass (firstn j sorted) < top_p /\ (Z.of_nat j < top_k)%Z)
              /\ (m = List.length ws
                  \/ top_p <= mass (firstn m sorted)
                  \/ Z.of_nat m = Z.max top_k 0)
      end)
  /\ nucleus_candidates [Fin (ln 0.4); Fin (ln 0.3); Fin (ln 0.2); Fin (ln 0.1)]
                        0.8 25
     = Ok ([0.4; 0.3; 0.2], [0; 1; 2]%nat)
  /\ nucleus_candidates [Fin 0.4; Fin 0.3; Fin 0.2; Fin 0.1] 0.8 25
     = Ok (flat_probs, [0; 1; 2; 3]%nat).
Proof.
  split; [| split; [exact nucleus_candidates_log | exact nucleus_candidates_flat]].
  intros ws top_p top_k. unfold nucleus_candidates.
  destruct (softmax ws) as [p | e] eqn:Hs; [| reflexivity].
  cbv zeta.
  split; [apply sort_desc_perm |]. split; [apply sort_desc_sorted |].
  destruct (nucleus_loop_prefix top_p top_k (sort_desc Rltb p) 0 [] [])
    as (m & Hm & Heq & Hbelow & Hstop).
  exists m. rewrite Heq. simpl.
  rewrite sort_desc_length, (softmax_length _ _ Hs) in Hm.
  rewrite sort_desc_length, (softmax_length _ _ Hs) in Hstop.
  split; [reflexivity |]. split; [exact Hm |]. split.
  - intros j Hj. destruct (Hbelow j Hj) as [H1 H2]. simpl in H2.
    split; [lra | exact H2].
  - destruct Hstop as [H | [H | H]].
    + now left.
    + right. left. lra.
    + right. right. simpl in H.
      destruct m as [| m'].
      * lia.
      * destruct (Hbelow m' ltac:(lia)) as [_ H2]. simpl in H2. lia.
Qed.

(** C1, as the specification states its example: on the raw vector
    [0.4, 0.3, 0.2, 0.1] the candidate set is not the three entries of
    index 0, 1 and 2. *)
Lemma nucleus_example_not_three :
  ~ (exists prob : list R,
        nucleus_candidates [Fin 0.4; Fin 0.3; Fin 0.2; Fin 0.1] 0.8 25
        = Ok (prob, [0; 1; 2]%nat)).
Proof.
  intros [prob H]. rewrite nucleus_candidates_flat in H. discriminate.
Qed.

(** C2.  The Repetition Guard returns the nucleus-sampled candidate unless
    it occurs at least [win_size * tau_r] times among the last [win_size]
    history entries, in which case [ras_sampling] draws from the full
    primary vector and [caras_sampling] from the guidance vector. *)
Theorem ras_sampling_is_repetition_guard :
  forall (ws cfg : list score) (decoded : list Z) (top_p : R) (top_k : Z)
         (win_size : nat) (tau_r : R) (s : RandomState),
    ras_sampling ws decoded top_p top_k (Z.of_nat win_size) tau_r s
    = repetition_guard (nucleus_sampling ws top_p top_k)
                       (random_sampling ws decoded) decoded win_size tau_r s
    /\ caras_sampling (ws, cfg) decoded top_p top_k (Z.of_nat win_size) tau_r s
       = repetition_guard (nucleus_sampling ws top_p top_k)
                          (random_sampling cfg decoded) decoded win_size tau_r s.
Proof.
  intros. unfold ras_sampling, caras_sampling, repetition_guard, bind.
  destruct (nucleus_sampling ws top_p top_k s) as [[c s1] | e];
    [| split; reflexivity].
  rewrite guard_condition.
  destruct (Rle_dec _ _); split; reflexivity.
Qed.

(** C3, at the failing input.  With weights [1, 1], [top_p = 0.85] and
    temperature 1 both entries are candidates, and both are allowed notes
    (and allowed durations); yet with a chord, or with a time signature,
    the call returns no token: the hook receives the candidate weights
    instead of a token and raises. *)
Theorem constraint_context_raises_on_candidates :
  @top_p_sampling_with_constraints two_notes [1; 1] [] 0.85 1
                                   (Some "C"%string) None [] zero_state
  = Err RuntimeError
  /\ @top_p_sampling_with_constraints two_notes [1; 1] [] 0.85 1
                                      None (Some "4/4"%string) [] zero_state
     = Err RuntimeError.
Proof.
  split; unfold top_p_sampling_with_constraints.
  - step by (destruct (Req_dec_T 1 0); [lra | reflexivity]).
    step by (apply lift_Ok, tensor_pow_ones).
    step by (apply lift_Ok, tensor_div_ones).
    step by (apply lift_Ok; reflexivity).
    rewrite sort_desc_halves. simpl map.
    step by (apply lift_Ok, first_where_halves).
    reflexivity.
  - step by (destruct (Req_dec_T 1 0); [lra | reflexivity]).
    step by (apply lift_Ok, tensor_pow_ones).
    step by (apply lift_Ok, tensor_div_ones).
    step by (apply lift_Ok; reflexivity).
    rewrite sort_desc_halves. simpl map.
    step by (apply lift_Ok, first_where_halves).
    reflexivity.
Qed.

(** C4 (as amended).  A temperature of 0 makes the call raise
    ZeroDivisionError, from the Python division [1 / temperature], whatever
    the other arguments; nothing catches it.  A negative temperature is not
    rejected: the scores are raised to the negative power [1 / temperature]
    and sampling goes on, so that on the weights [1, 1] a token is
    returned. *)
Theorem temperature_zero_raises_negative_passes :
  (forall (mt : MusicTheory) (ws : list R) (decoded : list Z) (top_p : R)
          (chord sig : option string) (recent : list Z) (s : RandomState),
      top_p_sampling_with_constraints ws decoded top_p 0 chord sig recent s
      = Err ZeroDivisionError)
  /\ (forall (decoded : list Z) (temperature : R),
         temperature < 0 ->
         @top_p_sampling_with_constraints two_notes [1; 1] decoded 0.85
                                          temperature None None [] zero_state
         = Ok (0%nat, advance_torch zero_state)).
Proof.
  split.
  - intros. unfold top_p_sampling_with_constraints.
    apply bind_Err.
    destruct (Req_dec_T 0 0) as [_ | H]; [reflexivity | contradiction].
  - intros decoded temperature Ht. apply top_p_uniform_pair. lra.
Qed.

Lemma temperature_zero_raises_negative_passes_witness :
  -1 < 0
  /\ @top_p_sampling_with_constraints two_notes [1; 1] [] 0.85 (-1) None None []
                                      zero_state
     = Ok (0%nat, advance_torch zero_state).
Proof.
  split; [lra |].
  apply (proj2 temperature_zero_raises_negative_passes [] (-1)). lra.
Defined.

(** C4, as stated: with temperature -1 the call raises nothing. *)
Lemma negative_temperature_raises_nothing :
  ~ (exists e : exn,
        @top_p_sampling_with_constraints two_notes [1; 1] [] 0.85 (-1)
                                         None None [] zero_state
        = Err e).
Proof.
  intros [e H]. rewrite top_p_uniform_pair in H by lra. discriminate.
Qed.

(** C5 (as amended).  With [top_k] above the vocabulary size
    [topk_sampling] fails: [torch.topk] raises and nothing clamps. *)
Theorem topk_sampling_above_vocabulary_raises :
  forall (ws : list score) (decoded : list Z) (top_k : Z) (s : RandomState),
    (Z.of_nat (List.length ws) < top_k)%Z ->
    topk_sampling ws decoded top_k s = Err RuntimeError.
Proof.
  intros ws decoded top_k s H. unfold topk_sampling, bind, lift, topk.
  destruct (Z.ltb_spec (Z.of_nat (List.length ws)) top_k) as [_ | H']; [| lia].
  rewrite orb_true_r. reflexivity.
Qed.

Lemma topk_sampling_above_vocabulary_raises_witness :
  (Z.of_nat (List.length [Fin 1; Fin 2]) < 3)%Z
  /\ topk_sampling [Fin 1; Fin 2] [] 3 zero_state = Err RuntimeError.
Proof.
  split; [simpl; lia |].
  apply (topk_sampling_above_vocabulary_raises [Fin 1; Fin 2] [] 3 zero_state).
  simpl; lia.
Defined.

(** C5, as stated: a call with [top_k = 3] on a vocabulary of two entries
    returns no token. *)
Lemma topk_sampling_does_fail :
  ~ (exists (id : nat) (s' : RandomState),
        topk_sampling [Fin 1; Fin 2] [] 3 zero_state = Ok (id, s')).
Proof.
  intros (id & s' & H). unfold topk_sampling, bind, lift, topk in H.
  simpl in H. discriminate.
Qed.

(** C6.  Every token id a sampling entry point returns is an index of the
    score vector it was given: [0 <= id < vocabulary size].  For
    [caras_sampling] the two vectors of the pair are over one vocabulary. *)
Theorem sampled_token_is_valid_index :
  forall (mt : MusicTheory) (ws cfg : list score) (weights : list R)
         (decoded : list Z) (top_p : R) (top_k win_size : Z)
         (tau_r temperature : R) (chord sig : option string)
         (recent : list Z) (s s' : RandomState) (id : nat),
    (nucleus_sampling ws top_p top_k s = Ok (id, s') ->
     (id < List.length ws)%nat)
    /\ (topk_sampling ws decoded top_k s = Ok (id, s') ->
        (id < List.length ws)%nat)
    /\ (ras_sampling ws decoded top_p top_k win_size tau_r s = Ok (id, s') ->
        (id < List.length ws)%nat)
    /\ (List.length cfg = List.length ws ->
        caras_sampling (ws, cfg) decoded top_p top_k win_size tau_r s
        = Ok (id, s') ->
        (id < List.length ws)%nat)
    /\ (random_sampling ws decoded s = Ok (id, s') ->
        (id < List.length ws)%nat)
    /\ (top_p_sampling_with_constraints weights decoded top_p temperature
                                        chord sig recent s = Ok (id, s') ->
        (id < List.length weights)%nat).
Proof.
  intros. repeat split.
  - apply nucleus_sampling_bound.
  - apply topk_sampling_bound.
  - apply ras_sampling_bound.
  - intros Hlen H. apply caras_sampling_bound in H. lia.
  - apply random_sampling_bound.
  - apply top_p_sampling_with_constraints_bound.
Qed.

Lemma sampled_token_is_valid_index_witness :
  (nucleus_sampling [Fin 0] 0.8 25 zero_state
   = Ok (0%nat, advance_torch zero_state)
   /\ topk_sampling [Fin 0] [] 1 zero_state
      = Ok (0%nat, advance_torch zero_state)
   /\ ras_sampling [Fin 0] [] 0.8 25 10 0.1 zero_state
      = Ok (0%nat, advance_torch zero_state)
   /\ List.length [Fin 0] = List.length [Fin 0]
   /\ caras_sampling ([Fin 0], [Fin 0]) [] 0.8 25 10 0.1 zero_state
      = Ok (0%nat, advance_torch zero_state)
   /\ random_sampling [Fin 0] [] zero_state
      = Ok (0%nat, advance_torch zero_state)
   /\ @top_p_sampling_with_constraints two_notes [1; 1] [] 0.85 1 None None []
                                       zero_state
      = Ok (0%nat, advance_torch zero_state))
  /\ (0 < List.length [Fin 0])%nat
  /\ (0 < List.length [1; 1])%nat.
Proof.
  assert (Hn := nucleus_sampling_single zero_state eq_refl).
  assert (Ht := topk_sampling_single [] zero_state eq_refl).
  assert (Hr := ras_sampling_single zero_state eq_refl).
  assert (Hc := caras_sampling_single zero_state eq_refl).
  assert (Hd := random_sampling_single [] zero_state eq_refl).
  assert (Hp := top_p_uniform_pair [] 1 R1_neq_R0).
  split; [repeat split; assumption |].
  split.
  - destruct (sampled_token_is_valid_index two_notes [Fin 0] [Fin 0] [1; 1] []
                0.8 25 10 0.1 1 None None [] zero_state
                (advance_torch zero_state) 0%nat)
      as (H1 & _ & H3 & H4 & H5 & _).
    pose proof (H3 Hr). pose proof (H4 eq_refl Hc). pose proof (H5 Hd).
    exact (H1 Hn).
  - destruct (sampled_token_is_valid_index two_notes [Fin 0] [Fin 0] [1; 1] []
                0.85 1 10 0.1 1 None None [] zero_state
                (advance_torch zero_state) 0%nat)
      as (_ & H2 & _ & _ & _ & H6).
    pose proof (H2 Ht).
    exact (H6 Hp).
Defined.

(** C7 (as amended).  For a penalty of at least 1 and a window of valid
    token ids, the repetition-penalty stage divides a positive entry by the
    penalty once for every occurrence of its index in the window (an index
    that occurs twice is divided twice), leaves every other entry unchanged,
    and does not renormalise: the sum of the output is at most the sum of
    the input. *)
Theorem relieve_repetition_per_occurrence (recent : list Z) (penalty : R) :
  1 <= penalty ->
  forall ws : list R,
    Forall (fun t => (0 <= t < Z.of_nat (List.length ws))%Z) recent ->
    exists out : list R,
      relieve_repetition ws recent penalty = Ok out
      /\ List.length out = List.length ws
      /\ (forall i : nat,
             nth i out 0
             = if Rltb 0 (nth i ws 0)
               then nth i ws 0 / penalty ^ occurrences i recent
               else nth i ws 0)
      /\ tensor_sum out <= tensor_sum ws.
Proof.
  intros Hpen.
  induction recent as [| t rest IH]; intros ws Hvalid.
  - exists ws. simpl. split; [reflexivity |]. split; [reflexivity |].
    split; [| lra].
    intros i. destruct (Rltb 0 (nth i ws 0)); [| reflexivity].
    unfold occurrences. simpl. lra.
  - inversion Hvalid as [| ? ? Ht Hrest]; subst.
    simpl. rewrite (py_index_valid _ _ Ht).
    set (i0 := Z.to_nat t).
    assert (Hi0 : (i0 < List.length ws)%nat) by (unfold i0; lia).
    assert (Hocc_eq : occurrences i0 (t :: rest) = S (occurrences i0 rest)).
    { unfold occurrences. simpl.
      destruct (Z.eq_dec t (Z.of_nat i0)) as [_ | N]; [reflexivity |].
      exfalso. apply N. unfold i0. lia. }
    assert (Hocc_neq : forall i, i <> i0 ->
                                 occurrences i (t :: rest) = occurrences i rest).
    { intros i Hi. unfold occurrences. simpl.
      destruct (Z.eq_dec t (Z.of_nat i)) as [E | _]; [| reflexivity].
      exfalso. apply Hi. unfold i0. lia. }
    destruct (Rltb 0 (nth i0 ws 0)) eqn:Hw.
    + apply Rltb_spec in Hw.
      destruct (Req_dec_T penalty 0) as [E | _]; [lra |].
      set (ws' := set_nth i0 (nth i0 ws 0 / penalty) ws).
      assert (Hlen' : List.length ws' = List.length ws)
        by apply set_nth_length.
      destruct (IH ws') as (out & Hout & Hlen & Hnth & Hsum).
      { now rewrite Hlen'. }
      exists out. split; [exact Hout |]. split; [congruence |].
      assert (Hq : 0 < nth i0 ws 0 / penalty).
      { apply Rdiv_lt_0_compat; lra. }
      split.
      * intros i. rewrite Hnth.
        destruct (Nat.eq_dec i i0) as [-> | Hne].
        -- unfold ws'. rewrite nth_set_nth_eq by exact Hi0.
           rewrite (Rltb_true 0 (nth i0 ws 0 / penalty)) by exact Hq.
           rewrite (Rltb_true 0 (nth i0 ws 0)) by exact Hw.
           rewrite Hocc_eq. simpl pow.
           assert (penalty ^ occurrences i0 rest <> 0)
             by (apply pow_nonzero; lra).
           field. split; [assumption | lra].
        -- unfold ws'. rewrite nth_set_nth_neq by congruence.
           now rewrite Hocc_neq.
      * unfold ws' in Hsum. rewrite tensor_sum_set_nth in Hsum by exact Hi0.
        assert (nth i0 ws 0 / penalty <= nth i0 ws 0).
        { apply (Rmult_le_reg_r penalty); [lra |].
          unfold Rdiv. rewrite Rmult_assoc, Rinv_l by lra. nra. }
        lra.
    + destruct (IH ws Hrest) as (out & Hout & Hlen & Hnth & Hsum).
      exists out. split; [exact Hout |]. split; [exact Hlen |].
      split; [| exact Hsum].
      intros i. rewrite Hnth.
      destruct (Nat.eq_dec i i0) as [-> | Hne].
      * rewrite Hw. reflexivity.
      * now rewrite Hocc_neq.
Qed.

Lemma relieve_repetition_per_occurrence_witness :
  1 <= 2
  /\ Forall (fun t => (0 <= t < Z.of_nat (List.length [1; 1]))%Z) [0%Z; 0%Z]
  /\ exists out : list R,
      relieve_repetition [1; 1] [0%Z; 0%Z] 2 = Ok out
      /\ List.length out = List.length [1; 1]
      /\ (forall i : nat,
             nth i out 0
             = if Rltb 0 (nth i [1; 1] 0)
               then nth i [1; 1] 0 / 2 ^ occurrences i [0%Z; 0%Z]
               else nth i [1; 1] 0)
      /\ tensor_sum out <= tensor_sum [1; 1].
Proof.
  assert (Hp : 1 <= 2) by lra.
  assert (Hv : Forall (fun t => (0 <= t < Z.of_nat (List.length [1; 1]))%Z)
                      [0%Z; 0%Z]).
  { repeat constructor; simpl; lia. }
  split; [exact Hp |]. split; [exact Hv |].
  exact (relieve_repetition_per_occurrence [0%Z; 0%Z] 2 Hp [1; 1] Hv).
Defined.

(** C7, as stated: with the window [0, 0] entry 0 is divided twice, not
    once as the specification words it. *)
Lemma relieve_repetition_not_once :
  relieve_repetition [1; 1] [0%Z; 0%Z] 2
  <> Ok (relieve_repetition_spec [1; 1] [0%Z; 0%Z] 2).
Proof.
  rewrite relieve_repetition_twice.
  unfold relieve_repetition_spec, enumerate. simpl.
  rewrite (Rltb_true 0 1) by lra.
  intros H. inversion H as [E]. lra.
Qed.

(** C8.  With [top_k] equal to the vocabulary size, top-k selection keeps
    every entry: the tensor handed to the draw is the input tensor, and
    [topk_sampling] is [random_sampling]. *)
Theorem topk_sampling_full_vocabulary :
  forall (ws : list score) (decoded : list Z) (s : RandomState),
    (exists vi, topk ws (Z.of_nat (List.length ws)) = Ok vi
                /\ scatter (repeat NegInf (List.length ws)) vi = ws)
    /\ topk_sampling ws decoded (Z.of_nat (List.length ws)) s
       = random_sampling ws decoded s.
Proof.
  intros ws decoded s.
  assert (Hk : topk ws (Z.of_nat (List.length ws))
               = Ok (sort_desc score_ltb ws)).
  { unfold topk.
    destruct (Z.ltb_spec (Z.of_nat (List.length ws)) 0) as [H | _]; [lia |].
    rewrite Z.ltb_irrefl. simpl. rewrite Nat2Z.id.
    rewrite <- (sort_desc_length score_ltb ws) at 1. now rewrite firstn_all. }
  assert (Hsc : scatter (repeat NegInf (List.length ws)) (sort_desc score_ltb ws)
                = ws).
  { apply scatter_all; [apply sort_desc_perm | apply repeat_length]. }
  split.
  - exists (sort_desc score_ltb ws). split; assumption.
  - unfold topk_sampling, bind, lift. rewrite Hk, Hsc.
    destruct (random_sampling ws decoded s) as [[i s'] | e]; reflexivity.
Qed.

(** C9.  With [tau_r = 0] the threshold [win_size * tau_r] is 0, which
    every count meets: the nucleus candidate is drawn and discarded, and
    the result is a draw from the full vector ([ras_sampling]) or from the
    guidance vector ([caras_sampling]), whatever the history holds. *)
Theorem tau_r_zero_always_falls_back :
  forall (ws cfg : list score) (decoded : list Z) (top_p : R) (top_k : Z)
         (win_size : Z) (s : RandomState),
    ras_sampling ws decoded top_p top_k win_size 0 s
    = (_ <- nucleus_sampling ws top_p top_k ;; random_sampling ws decoded) s
    /\ caras_sampling (ws, cfg) decoded top_p top_k win_size 0 s
       = (_ <- nucleus_sampling ws top_p top_k ;; random_sampling cfg decoded) s.
Proof.
  intros. unfold ras_sampling, caras_sampling, bind.
  destruct (nucleus_sampling ws top_p top_k s) as [[c s1] | e];
    [| split; reflexivity].
  rewrite Rleb_true by (rewrite Rmult_0_r; apply pos_INR).
  split; reflexivity.
Qed.

(** C10.  [random_sampling] does not read [decoded_tokens]: with the same
    weights and the same random state it returns the same token (and leaves
    the same random state) for any two histories. *)
Theorem random_sampling_ignores_decoded_tokens :
  forall (ws : list score) (d1 d2 : list Z) (s : RandomState),
    random_sampling ws d1 s = random_sampling ws d2 s.
Proof. intros. reflexivity. Qed.

(** * Further properties of the samplers *)

(** ** Softmax and the categorical draw, in general *)

Lemma tensor_sum_pos_of_member (e : list R) (x : R) :
  Forall (fun v => 0 <= v) e -> In x e -> 0 < x -> 0 < tensor_sum e.
Proof.
  induction 1 as [| y e Hy He IH]; intros Hin Hx; [contradiction |].
  simpl. pose proof (tensor_sum_nonneg e He).
  destruct Hin as [-> | Hin]; [lra |].
  specialize (IH Hin Hx). lra.
Qed.

Lemma score_exps_nonneg (ws : list score) :
  Forall (fun v => 0 <= v) (map score_exp ws).
Proof.
  apply Forall_forall. intros v Hv. apply in_map_iff in Hv.
  destruct Hv as (y & <- & _). apply score_exp_nonneg.
Qed.

(** Softmax has a value on every vector that holds a finite score. *)
Lemma softmax_defined (ws : list score) :
  (exists r, In (Fin r) ws) ->
  softmax ws
  = Ok (map (fun v => v / tensor_sum (map score_exp ws)) (map score_exp ws))
  /\ 0 < tensor_sum (map score_exp ws).
Proof.
  intros [r Hr].
  assert (Hpos : 0 < tensor_sum (map score_exp ws)).
  { apply (tensor_sum_pos_of_member _ (exp r)).
    - apply score_exps_nonneg.
    - change (exp r) with (score_exp (Fin r)). now apply in_map.
    - apply exp_pos. }
  split; [| exact Hpos].
  unfold softmax. destruct ws as [| x ws]; [contradiction |].
  destruct (Req_dec_T _ 0) as [E | _]; [lra | reflexivity].
Qed.

(** Without a finite score softmax has no value, or no entry. *)
Lemma softmax_undefined (ws : list score) (p : list R) :
  ~ (exists r, In (Fin r) ws) -> softmax ws = Ok p -> p = [].
Proof.
  intros Hno H. unfold softmax in H. destruct ws as [| x ws].
  - inversion H. reflexivity.
  - destruct (Req_dec_T _ 0) as [_ | N]; [discriminate |].
    exfalso. apply N.
    assert (Hz : forall l : list score,
               (forall r, ~ In (Fin r) l) -> tensor_sum (map score_exp l) = 0).
    { induction l as [| y l IH]; intros Hl; simpl; [reflexivity |].
      destruct y as [| r]; [| exfalso; apply (Hl r); now left].
      simpl. rewrite IH; [lra |]. intros r Hr. apply (Hl r). now right. }
    apply Hz. intros r Hr. apply Hno. now exists r.
Qed.

Lemma multinomial_defined (p : list R) (s : RandomState) :
  Forall (fun x => 0 <= x) p -> 0 < tensor_sum p ->
  multinomial p s
  = Ok (find_bucket (torch_stream s 0 * tensor_sum p) (cumsum p),
        advance_torch s).
Proof.
  intros Hp Hs. unfold multinomial.
  assert (Hex : existsb (fun x => Rltb x 0) p = false).
  { destruct (existsb _ p) eqn:E; [| reflexivity].
    apply existsb_exists in E. destruct E as (x & Hx & Hlt).
    rewrite Forall_forall in Hp. specialize (Hp x Hx).
    apply Rltb_spec in Hlt. lra. }
  rewrite Hex, Rleb_false by exact Hs. reflexivity.
Qed.

Lemma multinomial_inv (p : list R) (s s' : RandomState) (j : nat) :
  multinomial p s = Ok (j, s') ->
  Forall (fun x => 0 <= x) p /\ 0 < tensor_sum p
  /\ j = find_bucket (torch_stream s 0 * tensor_sum p) (cumsum p)
  /\ s' = advance_torch s.
Proof.
  unfold multinomial.
  destruct (existsb _ p) eqn:E; [discriminate |].
  destruct (Rleb (tensor_sum p) 0) eqn:Hs; [discriminate |].
  intros H. inversion H; subst. repeat split.
  - apply Forall_forall. intros x Hx.
    destruct (Rle_dec 0 x) as [Hle | Hn]; [exact Hle |].
    exfalso. assert (Hex : existsb (fun x => Rltb x 0) p = true).
    { apply existsb_exists. exists x. split; [exact Hx |]. apply Rltb_true. lra. }
    congruence.
  - destruct (Rlt_dec 0 (tensor_sum p)) as [H0 | Hn]; [exact H0 |].
    rewrite Rleb_true in Hs by lra. discriminate.
Qed.

(** The bucket a positive variate falls in has positive weight. *)
Lemma find_bucket_positive (p : list R) :
  forall acc x,
    acc < x -> x <= acc + tensor_sum p ->
    0 < nth (find_bucket x (cumsum_from acc p)) p 0.
Proof.
  induction p as [| v rest IH]; intros acc x Hlo Hhi.
  - simpl in Hhi. lra.
  - simpl. destruct rest as [| v' rest'].
    + simpl in *. lra.
    + change (cumsum_from (acc + v) (v' :: rest'))
        with ((acc + v + v') :: cumsum_from (acc + v + v') rest').
      cbv iota.
      change ((acc + v + v') :: cumsum_from (acc + v + v') rest')
        with (cumsum_from (acc + v) (v' :: rest')).
      destruct (Rleb x (acc + v)) eqn:E.
      * apply Rleb_spec in E. simpl. lra.
      * assert (acc + v < x).
        { unfold Rleb in E. destruct (Rle_dec x (acc + v)); [discriminate | lra]. }
        change (nth (S (find_bucket x (cumsum_from (acc + v) (v' :: rest'))))
                    (v :: v' :: rest') 0)
          with (nth (find_bucket x (cumsum_from (acc + v) (v' :: rest')))
                    (v' :: rest') 0).
        apply IH; [assumption |]. simpl in *. lra.
Qed.

Lemma multinomial_draws_support (p : list R) (s s' : RandomState) (j : nat) :
  0 < torch_stream s 0 <= 1 ->
  multinomial p s = Ok (j, s') -> 0 < nth j p 0.
Proof.
  intros [Hlo Hhi] H.
  apply multinomial_inv in H. destruct H as (Hp & Hs & -> & _).
  unfold cumsum. apply find_bucket_positive; nra.
Qed.

Lemma nth_softmax (ws : list score) (p : list R) (j : nat) :
  softmax ws = Ok p ->
  nth j p 0 = score_exp (nth j ws NegInf) / tensor_sum (map score_exp ws).
Proof.
  intros H. unfold softmax in H. destruct ws as [| x ws].
  - inversion H. destruct j; simpl; unfold Rdiv; now rewrite Rmult_0_l.
  - destruct (Req_dec_T _ 0); [discriminate |].
    assert (Hp : p = map (fun v => v / tensor_sum (map score_exp (x :: ws)))
                         (map score_exp (x :: ws)))
      by (inversion H; reflexivity).
    subst p. rewrite map_map.
    set (f := fun y => score_exp y / tensor_sum (map score_exp (x :: ws))).
    assert (E : f NegInf = 0) by (unfold f, Rdiv; simpl; apply Rmult_0_l).
    rewrite <- E at 1. now rewrite map_nth.
Qed.

(** A draw with a variate in (0, 1] never lands on a score of -inf. *)
Lemma random_sampling_draws_finite (ws : list score) (d : list Z)
      (s s' : RandomState) (id : nat) :
  0 < torch_stream s 0 <= 1 ->
  random_sampling ws d s = Ok (id, s') ->
  exists r, nth_error ws id = Some (Fin r).
Proof.
  intros Hu H. unfold random_sampling in H.
  apply bind_inv in H as (p & s1 & Hp & H).
  apply lift_inv in Hp as [Hp ->].
  pose proof (multinomial_bound _ _ _ _ H) as Hlen.
  rewrite (softmax_length _ _ Hp) in Hlen.
  apply (multinomial_draws_support _ _ _ _ Hu) in H.
  rewrite (nth_softmax _ _ _ Hp) in H.
  destruct (nth_error ws id) as [x |] eqn:Hx;
    [| apply nth_error_None in Hx; lia].
  rewrite (nth_error_nth _ _ _ Hx) in H.
  destruct x as [| r]; [| now exists r].
  simpl in H. unfold Rdiv in H. rewrite Rmult_0_l in H. lra.
Qed.

(** ** When the samplers return *)

(** X1.  [random_sampling] returns a token exactly when the vector holds a
    finite score: then it returns an index of the vector and draws once;
    on an empty vector, or one whose every score is -inf, it returns
    nothing. *)
Theorem random_sampling_returns_iff_finite :
  forall (ws : list score) (d : list Z) (s : RandomState),
    ((exists r, In (Fin r) ws) ->
     exists id, random_sampling ws d s = Ok (id, advance_torch s)
                /\ (id < List.length ws)%nat)
    /\ (~ (exists r, In (Fin r) ws) ->
        forall id s', random_sampling ws d s <> Ok (id, s')).
Proof.
  intros ws d s. split.
  - intros Hfin. destruct (softmax_defined ws Hfin) as [Hp _].
    assert (Hne : ws <> []) by (destruct Hfin as [r Hr]; destruct ws; [contradiction | discriminate]).
    destruct (softmax_distribution _ _ Hne Hp) as [Hnn Hsum].
    assert (H : random_sampling ws d s
                = Ok (find_bucket (torch_stream s 0 * tensor_sum
                        (map (fun v => v / tensor_sum (map score_exp ws))
                             (map score_exp ws)))
                        (cumsum (map (fun v => v / tensor_sum (map score_exp ws))
                                     (map score_exp ws))),
                      advance_torch s)).
    { unfold random_sampling. step by (apply lift_Ok, Hp).
      apply multinomial_defined; [exact Hnn | lra]. }
    eexists. split; [exact H |]. now apply random_sampling_bound in H.
  - intros Hno id s' H. unfold random_sampling in H.
    apply bind_inv in H as (p & s1 & Hp & H).
    apply lift_inv in Hp as [Hp _].
    apply (softmax_undefined _ _ Hno) in Hp. subst p.
    apply multinomial_bound in H. simpl in H. lia.
Qed.

Lemma random_sampling_returns_iff_finite_witness :
  (exists r, In (Fin r) [Fin 0])
  /\ (exists id, random_sampling [Fin 0] [] zero_state
                 = Ok (id, advance_torch zero_state)
                 /\ (id < List.length [Fin 0])%nat)
  /\ ~ (exists r, In (Fin r) [NegInf])
  /\ (forall id s', random_sampling [NegInf] [] zero_state <> Ok (id, s')).
Proof.
  assert (H1 : exists r, In (Fin r) [Fin 0]) by (exists 0; now left).
  assert (H2 : ~ (exists r, In (Fin r) [NegInf])).
  { intros [r [H | []]]. discriminate. }
  split; [exact H1 |].
  split; [exact (proj1 (random_sampling_returns_iff_finite [Fin 0] [] zero_state) H1) |].
  split; [exact H2 |].
  exact (proj2 (random_sampling_returns_iff_finite [NegInf] [] zero_state) H2).
Defined.

Lemma enumerate_from_fst {A} (t : list A) (i : nat) :
  map fst (enumerate_from i t) = t.
Proof.
  revert i. induction t as [| x t IH]; intros i; simpl; [reflexivity |].
  now rewrite IH.
Qed.

Lemma enumerate_from_In {A} (t : list A) (k i : nat) (v : A) :
  In (v, i) (enumerate_from k t) ->
  (k <= i)%nat /\ nth_error t (i - k) = Some v.
Proof.
  revert k. induction t as [| x t IH]; intros k H; simpl in H; [contradiction |].
  destruct H as [E | H].
  - inversion E; subst. split; [lia |]. now rewrite Nat.sub_diag.
  - apply IH in H. destruct H as [Hk Hn]. split; [lia |].
    replace (i - k)%nat with (S (i - S k)) by lia. exact Hn.
Qed.

Lemma sort_desc_In {A} (ltb : A -> A -> bool) (p : list A) (v : A) (i : nat) :
  In (v, i) (sort_desc ltb p) <-> nth_error p i = Some v.
Proof.
  split; intros H.
  - apply (Permutation_in _ (sort_desc_perm ltb p)) in H.
    apply enumerate_from_In in H. now rewrite Nat.sub_0_r in H.
  - apply (Permutation_in _ (Permutation_sym (sort_desc_perm ltb p))).
    apply (enumerate_from_nth p 0 i v H).
Qed.

Lemma tensor_sum_perm (l l' : list R) :
  Permutation l l' -> tensor_sum l = tensor_sum l'.
Proof.
  induction 1; simpl; lra.
Qed.

Lemma sort_desc_mass (p : list R) : mass (sort_desc Rltb p) = tensor_sum p.
Proof.
  unfold mass.
  rewrite (tensor_sum_perm _ _ (Permutation_map fst (sort_desc_perm Rltb p))).
  unfold enumerate. now rewrite enumerate_from_fst.
Qed.

Lemma tensor_sum_le_zero (l : list R) :
  Forall (fun x => x <= 0) l -> tensor_sum l <= 0.
Proof. induction 1; simpl; lra. Qed.

(** The first sorted entry of a probability vector is positive. *)
Lemma sort_desc_head_positive (p : list R) (h : R * nat) (tl : list (R * nat)) :
  tensor_sum p = 1 -> sort_desc Rltb p = h :: tl -> 0 < fst h.
Proof.
  intros Hsum Hs.
  destruct (Rlt_dec 0 (fst h)) as [H | Hn]; [exact H |].
  exfalso.
  pose proof (sort_desc_sorted p) as Hsorted. rewrite Hs in Hsorted.
  inversion Hsorted as [| ? ? _ Hall]; subst.
  assert (Hle : Forall (fun x => x <= 0) (map fst (h :: tl))).
  { simpl. constructor; [lra |].
    apply Forall_forall. intros v Hv. apply in_map_iff in Hv.
    destruct Hv as (y & <- & Hy).
    rewrite Forall_forall in Hall. specialize (Hall y Hy).
    unfold before in Hall. lra. }
  apply tensor_sum_le_zero in Hle.
  pose proof (sort_desc_mass p) as Hm. unfold mass in Hm. rewrite Hs in Hm.
  lra.
Qed.

Lemma sorted_values_nonneg (p : list R) (m : nat) :
  Forall (fun x => 0 <= x) p ->
  Forall (fun x => 0 <= x) (map fst (firstn m (sort_desc Rltb p))).
Proof.
  intros Hp. apply Forall_forall. intros v Hv.
  apply in_map_iff in Hv. destruct Hv as ([v' i] & <- & Hy).
  assert (Hin : In (v', i) (sort_desc Rltb p)).
  { rewrite <- (firstn_skipn m (sort_desc Rltb p)). apply in_or_app. now left. }
  apply sort_desc_In in Hin. apply nth_error_In in Hin.
  rewrite Forall_forall in Hp. simpl. now apply Hp.
Qed.

(** X3.  On a vector with a finite score, [nucleus_sampling] returns a
    token (an index of the vector, after one draw) when [top_p > 0] and
    [top_k >= 1], and raises RuntimeError when [top_p <= 0] or
    [top_k <= 0], the candidate list being empty. *)
Theorem nucleus_sampling_returns_iff_positive_caps :
  forall (ws : list score) (top_p : R) (top_k : Z) (s : RandomState),
    (exists r, In (Fin r) ws) ->
    ((0 < top_p /\ (1 <= top_k)%Z) ->
     exists id, nucleus_sampling ws top_p top_k s = Ok (id, advance_torch s)
                /\ (id < List.length ws)%nat)
    /\ ((top_p <= 0 \/ (top_k <= 0)%Z) ->
        nucleus_sampling ws top_p top_k s = Err RuntimeError).
Proof.
  intros ws top_p top_k s Hfin.
  destruct (softmax_defined ws Hfin) as [Hp _].
  set (p := map (fun v => v / tensor_sum (map score_exp ws)) (map score_exp ws)) in *.
  assert (Hne : ws <> [])
    by (destruct Hfin as [r Hr]; destruct ws; [contradiction | discriminate]).
  destruct (softmax_distribution _ _ Hne Hp) as [Hnn Hsum].
  split.
  - intros [Htp Htk].
    destruct (sort_desc Rltb p) as [| h tl] eqn:Hs.
    { exfalso. pose proof (sort_desc_length Rltb p) as Hl. rewrite Hs in Hl.
      rewrite (softmax_length _ _ Hp) in Hl. destruct ws; [congruence | discriminate]. }
    pose proof (sort_desc_head_positive p h tl Hsum Hs) as Hh.
    destruct (nucleus_loop_prefix top_p top_k (sort_desc Rltb p) 0 [] [])
      as (m & Hm & Heq & _ & Hstop).
    assert (Hm1 : (1 <= m)%nat).
    { destruct m as [| m']; [| lia]. exfalso.
      destruct Hstop as [H | [H | H]].
      - rewrite Hs in H. discriminate.
      - unfold mass in H. simpl in H. lra.
      - simpl in H. lia. }
    set (prob := map fst (firstn m (sort_desc Rltb p))) in *.
    set (indices := map snd (firstn m (sort_desc Rltb p))) in *.
    assert (Hprob_nn : Forall (fun x => 0 <= x) prob)
      by (apply sorted_values_nonneg; exact Hnn).
    assert (Hprob_pos : 0 < tensor_sum prob).
    { apply (tensor_sum_pos_of_member _ (fst h)); [exact Hprob_nn | | exact Hh].
      unfold prob. rewrite Hs. destruct m; [lia |]. simpl. now left. }
    assert (Hlen : List.length prob = List.length indices)
      by (unfold prob, indices; now rewrite !length_map).
    pose proof (multinomial_defined prob s Hprob_nn Hprob_pos) as Hdraw.
    set (j := find_bucket (torch_stream s 0 * tensor_sum prob) (cumsum prob)) in *.
    assert (Hj : (j < List.length indices)%nat).
    { rewrite <- Hlen. apply multinomial_bound in Hdraw. exact Hdraw. }
    destruct (nth_error indices j) as [i |] eqn:Hi;
      [| apply nth_error_None in Hi; lia].
    assert (H : nucleus_sampling ws top_p top_k s = Ok (i, advance_torch s)).
    { unfold nucleus_sampling, nucleus_candidates. rewrite Hp.
      step by (apply lift_Ok; reflexivity).
      simpl in Heq. rewrite Heq. simpl fst. simpl snd.
      step by (exact Hdraw).
      fold indices. rewrite Hi. reflexivity. }
    exists i. split; [exact H |]. now apply nucleus_sampling_bound in H.
  - intros Hcap.
    assert (Hloop : nucleus_loop top_p top_k (sort_desc Rltb p) 0 [] [] = ([], [])).
    { destruct (sort_desc Rltb p) as [| [v i] tl]; [reflexivity |].
      simpl. destruct Hcap as [H | H].
      - rewrite Rltb_false by exact H. reflexivity.
      - destruct (Z.ltb_spec 0 top_k) as [H' | _]; [lia |].
        rewrite andb_false_r. reflexivity. }
    unfold nucleus_sampling, nucleus_candidates. rewrite Hp.
    step by (apply lift_Ok; reflexivity).
    rewrite Hloop. apply bind_Err. unfold multinomial. simpl.
    rewrite Rleb_true by lra. reflexivity.
Qed.

Lemma nucleus_sampling_returns_iff_positive_caps_witness :
  (exists r, In (Fin r) [Fin 0])
  /\ (0 < 0.8 /\ (1 <= 25)%Z)
  /\ (exists id, nucleus_sampling [Fin 0] 0.8 25 zero_state
                 = Ok (id, advance_torch zero_state)
                 /\ (id < List.length [Fin 0])%nat)
  /\ (0 <= 0 \/ (25 <= 0)%Z)
  /\ nucleus_sampling [Fin 0] 0 25 zero_state = Err RuntimeError.
Proof.
  assert (H1 : exists r, In (Fin r) [Fin 0]) by (exists 0; now left).
  assert (H2 : 0 < 0.8 /\ (1 <= 25)%Z) by (split; [lra | lia]).
  assert (H3 : 0 <= 0 \/ (25 <= 0)%Z) by (left; lra).
  split; [exact H1 |]. split; [exact H2 |].
  split; [exact (proj1 (nucleus_sampling_returns_iff_positive_caps
                          [Fin 0] 0.8 25 zero_state H1) H2) |].
  split; [exact H3 |].
  exact (proj2 (nucleus_sampling_returns_iff_positive_caps
                  [Fin 0] 0 25 zero_state H1) H3).
Defined.

Lemma score_ltb_exp (a b : score) :
  score_ltb a b = Rltb (score_exp a) (score_exp b).
Proof.
  destruct a as [| x], b as [| y]; simpl.
  - symmetry. apply Rltb_false. lra.
  - symmetry. apply Rltb_true. apply exp_pos.
  - symmetry. apply Rltb_false. left. apply exp_pos.
  - destruct (Rlt_dec x y) as [H | H].
    + rewrite (Rltb_true x y H). symmetry. apply Rltb_true. now apply exp_increasing.
    + rewrite (Rltb_false x y) by lra. symmetry. apply Rltb_false.
      destruct (Rle_lt_or_eq_dec y x ltac:(lra)) as [Hlt | ->]; [| lra].
      left. now apply exp_increasing.
Qed.



(** ** Top-k selection *)

Lemma score_ltb_irrefl (a : score) : score_ltb a a = false.
Proof. rewrite score_ltb_exp. apply Rltb_false. lra. Qed.

Lemma score_ltb_false_trans (a b c : score) :
  score_ltb a b = false -> score_ltb b c = false -> score_ltb a c = false.
Proof.
  rewrite !score_ltb_exp. intros H1 H2.
  unfold Rltb in *.
  destruct (Rlt_dec (score_exp a) (score_exp b)); [discriminate |].
  destruct (Rlt_dec (score_exp b) (score_exp c)); [discriminate |].
  destruct (Rlt_dec (score_exp a) (score_exp c)); [lra | reflexivity].
Qed.

Lemma score_ltb_asym (a b : score) :
  score_ltb a b = true -> score_ltb b a = false.
Proof.
  rewrite !score_ltb_exp. intros H. apply Rltb_spec in H.
  apply Rltb_false. lra.
Qed.

Lemma insert_desc_score_sorted (x : score * nat) (l : list (score * nat)) :
  StronglySorted not_below l ->
  StronglySorted not_below (insert_desc score_ltb x l).
Proof.
  intros Hs. induction Hs as [| y l Hs IH Hy]; simpl.
  - constructor; constructor.
  - destruct (score_ltb (fst x) (fst y)) eqn:E.
    + constructor; [exact IH |].
      apply (Permutation_Forall (Permutation_sym (insert_desc_perm score_ltb x l))).
      constructor; [now apply score_ltb_asym | exact Hy].
    + constructor; [constructor; assumption |].
      constructor; [exact E |].
      eapply Forall_impl; [| exact Hy]. intros z Hz.
      unfold not_below in *. eapply score_ltb_false_trans; eassumption.
Qed.

Lemma sort_desc_score_sorted (ws : list score) :
  StronglySorted not_below (sort_desc score_ltb ws).
Proof.
  unfold sort_desc. induction (enumerate ws) as [| x l IH]; simpl.
  - constructor.
  - now apply insert_desc_score_sorted.
Qed.

Lemma StronglySorted_app_inv {A} (R : A -> A -> Prop) (l1 l2 : list A) :
  StronglySorted R (l1 ++ l2) ->
  forall a b, In a l1 -> In b l2 -> R a b.
Proof.
  induction l1 as [| x l1 IH]; intros Hs a b Ha Hb; [contradiction |].
  simpl in Hs. apply StronglySorted_inv in Hs as [Hs Hall].
  destruct Ha as [-> | Ha].
  - rewrite Forall_forall in Hall. apply Hall. apply in_or_app. now right.
  - now apply IH.
Qed.

Lemma sort_desc_indices_NoDup {A} (ltb : A -> A -> bool) (t : list A) :
  NoDup (map snd (sort_desc ltb t)).
Proof.
  apply (Permutation_NoDup (l := map snd (enumerate t))).
  - apply Permutation_sym, Permutation_map, sort_desc_perm.
  - unfold enumerate. rewrite enumerate_from_snd. apply seq_NoDup.
Qed.

Lemma random_sampling_needs_finite (ws : list score) (d : list Z)
      (s s' : RandomState) (id : nat) :
  random_sampling ws d s = Ok (id, s') -> exists r, In (Fin r) ws.
Proof.
  intros H.
  destruct (existsb (fun x => match x with Fin _ => true | NegInf => false end) ws)
    eqn:E.
  { apply existsb_exists in E. destruct E as ([| r] & Hin & Hx); [discriminate |].
    now exists r. }
  assert (Hno : ~ (exists r, In (Fin r) ws)).
  { intros [r Hr].
    assert (existsb (fun x => match x with Fin _ => true | NegInf => false end) ws
            = true) by (apply existsb_exists; now exists (Fin r)).
    congruence. }
  exfalso. unfold random_sampling in H.
  apply bind_inv in H as (p & s1 & Hp & H).
  apply lift_inv in Hp as [Hp _].
  apply (softmax_undefined _ _ Hno) in Hp. subst p.
  apply multinomial_bound in H. simpl in H. lia.
Qed.

(** X5.  With a uniform variate in (0, 1], [topk_sampling] returns one of
    the [top_k] entries [torch.topk] selected, its score is finite, and no
    entry that was left out has a greater score. *)
Theorem topk_sampling_returns_a_top_entry :
  forall (ws : list score) (d : list Z) (top_k : Z) (s s' : RandomState)
         (id : nat),
    0 < torch_stream s 0 <= 1 ->
    topk_sampling ws d top_k s = Ok (id, s') ->
    let selected := firstn (Z.to_nat top_k) (sort_desc score_ltb ws) in
    In id (map snd selected)
    /\ (exists r, nth_error ws id = Some (Fin r))
    /\ forall j, (j < List.length ws)%nat -> ~ In j (map snd selected) ->
                 score_ltb (nth id ws NegInf) (nth j ws NegInf) = false.
Proof.
  intros ws d top_k s s' id Hu H selected.
  unfold topk_sampling in H.
  apply bind_inv in H as (vi & s1 & Hvi & H).
  apply lift_inv in Hvi as [Hvi ->].
  unfold topk in Hvi.
  destruct ((top_k <? 0)%Z || (Z.of_nat (List.length ws) <? top_k)%Z)%bool;
    [discriminate |].
  assert (Evi : vi = selected) by (inversion Hvi; reflexivity).
  subst vi. clear Hvi.
  destruct (random_sampling_draws_finite _ _ _ _ _ Hu H) as [r Hr].
  assert (Hnd : NoDup (map snd selected)).
  { unfold selected.
    pose proof (sort_desc_indices_NoDup score_ltb ws) as Hn.
    rewrite <- (firstn_skipn (Z.to_nat top_k) (sort_desc score_ltb ws)) in Hn.
    rewrite map_app in Hn. now apply NoDup_app_remove_r in Hn. }
  assert (Hin : In id (map snd selected)).
  { destruct (in_dec Nat.eq_dec id (map snd selected)) as [Hy | Hn]; [exact Hy |].
    exfalso. rewrite (scatter_untouched _ _ _ Hn) in Hr.
    apply nth_error_In, repeat_spec in Hr. discriminate. }
  split; [exact Hin |].
  apply in_map_iff in Hin. destruct Hin as ([v i] & Hi & Hin).
  simpl in Hi. subst i.
  assert (Hid : (id < List.length ws)%nat).
  { apply random_sampling_bound in H.
    now rewrite scatter_length, repeat_length in H. }
  rewrite (scatter_written _ _ v id Hnd Hin) in Hr
    by (now rewrite repeat_length).
  inversion Hr; subst v.
  assert (Hsorted_in : In (Fin r, id) (sort_desc score_ltb ws)).
  { rewrite <- (firstn_skipn (Z.to_nat top_k) (sort_desc score_ltb ws)).
    apply in_or_app. now left. }
  assert (Hws : nth_error ws id = Some (Fin r)) by (now apply sort_desc_In in Hsorted_in).
  split; [now exists r |].
  intros j Hj Hnot.
  assert (Hjn : nth_error ws j = Some (nth j ws NegInf)) by (now apply nth_error_nth').
  assert (Hjin : In (nth j ws NegInf, j) (sort_desc score_ltb ws))
    by (now apply sort_desc_In).
  rewrite <- (firstn_skipn (Z.to_nat top_k) (sort_desc score_ltb ws)) in Hjin.
  apply in_app_or in Hjin. destruct Hjin as [Hjin | Hjin].
  { exfalso. apply Hnot. apply in_map_iff. now exists (nth j ws NegInf, j). }
  pose proof (sort_desc_score_sorted ws) as Hs.
  rewrite <- (firstn_skipn (Z.to_nat top_k) (sort_desc score_ltb ws)) in Hs.
  pose proof (StronglySorted_app_inv _ _ _ Hs _ _ Hin Hjin) as Hnb.
  unfold not_below in Hnb. simpl in Hnb.
  rewrite (nth_error_nth _ _ _ Hws). exact Hnb.
Qed.

(** X6.  [topk_sampling] with [top_k <= 0] returns no token: a negative
    [top_k] is refused by [torch.topk], and with [top_k = 0] every score
    handed to the draw is -inf. *)
Theorem topk_sampling_nonpositive_k_returns_nothing :
  forall (ws : list score) (d : list Z) (top_k : Z) (s s' : RandomState)
         (id : nat),
    (top_k <= 0)%Z -> topk_sampling ws d top_k s <> Ok (id, s').
Proof.
  intros ws d top_k s s' id Hk H.
  unfold topk_sampling in H.
  apply bind_inv in H as (vi & s1 & Hvi & H).
  apply lift_inv in Hvi as [Hvi ->].
  unfold topk in Hvi.
  destruct ((top_k <? 0)%Z || (Z.of_nat (List.length ws) <? top_k)%Z)%bool;
    [discriminate |].
  assert (Evi : vi = []).
  { inversion Hvi. replace (Z.to_nat top_k) with 0%nat by lia. reflexivity. }
  subst vi. unfold scatter in H. simpl in H.
  apply random_sampling_needs_finite in H. destruct H as [r Hr].
  apply repeat_spec in Hr. discriminate.
Qed.

Lemma random_sampling_single_any (d : list Z) (s : RandomState) :
  random_sampling [Fin 0] d s = Ok (0%nat, advance_torch s).
Proof.
  unfold random_sampling. rewrite softmax_single.
  step by (apply lift_Ok; reflexivity).
  rewrite multinomial_defined; [reflexivity | | simpl; lra].
  constructor; [lra | constructor].
Qed.

Lemma topk_sampling_single_any (d : list Z) (s : RandomState) :
  topk_sampling [Fin 0] d 1 s = Ok (0%nat, advance_torch s).
Proof.
  unfold topk_sampling.
  step by (apply lift_Ok; reflexivity).
  apply random_sampling_single_any.
Qed.

Lemma topk_sampling_returns_a_top_entry_witness :
  0 < torch_stream half_state 0 <= 1
  /\ topk_sampling [Fin 0] [] 1 half_state = Ok (0%nat, advance_torch half_state)
  /\ In 0%nat (map snd (firstn (Z.to_nat 1) (sort_desc score_ltb [Fin 0])))
  /\ (exists r, nth_error [Fin 0] 0 = Some (Fin r)).
Proof.
  assert (Hu : 0 < torch_stream half_state 0 <= 1) by (simpl; lra).
  pose proof (topk_sampling_single_any [] half_state) as H.
  split; [exact Hu |]. split; [exact H |].
  destruct (topk_sampling_returns_a_top_entry [Fin 0] [] 1 half_state
              (advance_torch half_state) 0%nat Hu H) as (H1 & H2 & _).
  split; [exact H1 | exact H2].
Defined.

Lemma topk_sampling_nonpositive_k_returns_nothing_witness :
  (0 <= 0)%Z
  /\ topk_sampling [Fin 0] [] 0 zero_state <> Ok (0%nat, zero_state).
Proof.
  split; [lia |].
  apply (topk_sampling_nonpositive_k_returns_nothing [Fin 0] [] 0). lia.
Defined.

(** ** More on the Repetition Guard *)

Lemma rep_count_le_length (window : list Z) (c : nat) :
  (rep_count window c <= List.length window)%nat.
Proof. unfold rep_count. apply filter_length_le. Qed.

Lemma slice_from_length_le {A} (l : list A) (start : Z) :
  (List.length (slice_from l start) <= List.length l)%nat.
Proof. unfold slice_from. rewrite length_skipn. lia. Qed.

(** X7.  While the history is shorter than the threshold
    [win_size * tau_r], the Repetition Guard cannot fall back:
    [ras_sampling] and [caras_sampling] are [nucleus_sampling]. *)
Theorem ras_sampling_short_history_is_nucleus :
  forall (ws cfg : list score) (decoded : list Z) (top_p : R)
         (top_k win_size : Z) (tau_r : R) (s : RandomState),
    INR (List.length decoded) < IZR win_size * tau_r ->
    ras_sampling ws decoded top_p top_k win_size tau_r s
    = nucleus_sampling ws top_p top_k s
    /\ caras_sampling (ws, cfg) decoded top_p top_k win_size tau_r s
       = nucleus_sampling ws top_p top_k s.
Proof.
  intros ws cfg decoded top_p top_k win_size tau_r s Hshort.
  unfold ras_sampling, caras_sampling, bind.
  destruct (nucleus_sampling ws top_p top_k s) as [[c s1] | e];
    [| split; reflexivity].
  assert (Hle : INR (rep_count (slice_from decoded (- win_size)) c)
                <= INR (List.length decoded)).
  { apply le_INR. etransitivity; [apply rep_count_le_length |].
    apply slice_from_length_le. }
  rewrite Rleb_false by lra. split; reflexivity.
Qed.

Lemma ras_sampling_short_history_is_nucleus_witness :
  INR (List.length (@nil Z)) < IZR 10 * 0.1
  /\ ras_sampling [Fin 0] [] 0.8 25 10 0.1 zero_state
     = nucleus_sampling [Fin 0] 0.8 25 zero_state.
Proof.
  assert (H : INR (List.length (@nil Z)) < IZR 10 * 0.1) by (simpl; lra).
  split; [exact H |].
  exact (proj1 (ras_sampling_short_history_is_nucleus
                  [Fin 0] [Fin 0] [] 0.8 25 10 0.1 zero_state H)).
Defined.

Lemma occurrences_all (c : nat) (l : list Z) :
  Forall (fun t => t = Z.of_nat c) l -> occurrences c l = List.length l.
Proof.
  unfold occurrences. induction 1 as [| t l Ht _ IH]; simpl; [reflexivity |].
  destruct (Z.eq_dec t (Z.of_nat c)); [now rewrite IH | contradiction].
Qed.

(** X8.  When the last [win_size] history entries all are the candidate and
    [tau_r <= 1], [ras_sampling] discards the candidate and draws from the
    full vector. *)
Theorem ras_sampling_full_window_falls_back :
  forall (ws : list score) (decoded : list Z) (top_p : R) (top_k : Z)
         (win_size : nat) (tau_r : R) (s s1 : RandomState) (c : nat),
    nucleus_sampling ws top_p top_k s = Ok (c, s1) ->
    (win_size <= List.length decoded)%nat ->
    Forall (fun t => t = Z.of_nat c) (last_entries win_size decoded) ->
    tau_r <= 1 ->
    ras_sampling ws decoded top_p top_k (Z.of_nat win_size) tau_r s
    = random_sampling ws decoded s1.
Proof.
  intros ws decoded top_p top_k win_size tau_r s s1 c Hc Hlen Hall Htau.
  unfold ras_sampling. rewrite (bind_Ok _ _ _ _ _ Hc).
  rewrite guard_condition, (occurrences_all _ _ Hall).
  assert (Hw : List.length (last_entries win_size decoded) = win_size).
  { unfold last_entries. rewrite length_skipn. lia. }
  rewrite Hw.
  destruct (Rle_dec (INR win_size * tau_r) (INR win_size)) as [_ | N];
    [reflexivity |].
  exfalso. apply N. pose proof (pos_INR win_size). nra.
Qed.

Lemma ras_sampling_full_window_falls_back_witness :
  nucleus_sampling [Fin 0] 0.8 25 zero_state = Ok (0%nat, advance_torch zero_state)
  /\ (1 <= List.length [0%Z])%nat
  /\ Forall (fun t => t = Z.of_nat 0) (last_entries 1 [0%Z])
  /\ 0.1 <= 1
  /\ ras_sampling [Fin 0] [0%Z] 0.8 25 (Z.of_nat 1) 0.1 zero_state
     = random_sampling [Fin 0] [0%Z] (advance_torch zero_state).
Proof.
  pose proof (nucleus_sampling_single zero_state eq_refl) as H1.
  assert (H2 : (1 <= List.length [0%Z])%nat) by (simpl; lia).
  assert (H3 : Forall (fun t => t = Z.of_nat 0) (last_entries 1 [0%Z]))
    by (repeat constructor).
  assert (H4 : 0.1 <= 1) by lra.
  split; [exact H1 |]. split; [exact H2 |]. split; [exact H3 |].
  split; [exact H4 |].
  exact (ras_sampling_full_window_falls_back [Fin 0] [0%Z] 0.8 25 1 0.1
           zero_state (advance_torch zero_state) 0%nat H1 H2 H3 H4).
Defined.

(** ** More on the repetition penalty *)

Lemma relieve_repetition_cons (ws : list R) (t : Z) (rest : list Z) (penalty : R) :
  penalty <> 0 ->
  relieve_repetition ws (t :: rest) penalty
  = match py_index (List.length ws) t with
    | Ok i => relieve_repetition (relieve_step ws i penalty) rest penalty
    | Err e => Err e
    end.
Proof.
  intros Hp. simpl. destruct (py_index (List.length ws) t) as [i | e]; [| reflexivity].
  unfold relieve_step. destruct (Rltb 0 (nth i ws 0)); [| reflexivity].
  destruct (Req_dec_T penalty 0); [contradiction | reflexivity].
Qed.

Lemma relieve_step_length (ws : list R) (i : nat) (penalty : R) :
  List.length (relieve_step ws i penalty) = List.length ws.
Proof.
  unfold relieve_step. destruct (Rltb 0 (nth i ws 0)); [| reflexivity].
  apply set_nth_length.
Qed.

Lemma set_nth_comm {A} (i j : nat) (x y : A) (l : list A) :
  i <> j -> set_nth i x (set_nth j y l) = set_nth j y (set_nth i x l).
Proof.
  revert i j. induction l as [| a l IH]; intros [| i] [| j] H; simpl;
    try reflexivity; try congruence.
  f_equal. apply IH. congruence.
Qed.

Lemma relieve_step_comm (ws : list R) (i j : nat) (penalty : R) :
  relieve_step (relieve_step ws i penalty) j penalty
  = relieve_step (relieve_step ws j penalty) i penalty.
Proof.
  destruct (Nat.eq_dec i j) as [-> | Hne]; [reflexivity |].
  unfold relieve_step.
  destruct (Rltb 0 (nth i ws 0)) eqn:Hi, (Rltb 0 (nth j ws 0)) eqn:Hj;
    cbv iota;
    rewrite ?(nth_set_nth_neq i j), ?(nth_set_nth_neq j i) by congruence;
    rewrite ?Hi, ?Hj; try reflexivity.
  apply set_nth_comm. congruence.
Qed.

Lemma py_index_error (n : nat) (t : Z) (e : exn) :
  py_index n t = Err e -> e = IndexError.
Proof.
  unfold py_index.
  destruct (0 <=? t)%Z; [destruct (t <? Z.of_nat n)%Z |
                         destruct (- Z.of_nat n <=? t)%Z];
    intros H; inversion H; reflexivity.
Qed.

(** X9.  For a penalty other than 0, the result of [relieve_repetition]
    (the weights, or the error) does not depend on the order of the window. *)
Theorem relieve_repetition_window_order_irrelevant :
  forall (penalty : R) (recent recent' : list Z),
    penalty <> 0 -> Permutation recent recent' ->
    forall ws : list R,
      relieve_repetition ws recent penalty
      = relieve_repetition ws recent' penalty.
Proof.
  intros penalty recent recent' Hp Hperm.
  induction Hperm as [| t l l' _ IH | a b l | l1 l2 l3 _ IH1 _ IH2]; intros ws.
  - reflexivity.
  - rewrite !relieve_repetition_cons by exact Hp.
    destruct (py_index (List.length ws) t); [apply IH | reflexivity].
  - rewrite !relieve_repetition_cons by exact Hp.
    destruct (py_index (List.length ws) a) as [i | ea] eqn:Ha,
             (py_index (List.length ws) b) as [j | eb] eqn:Hb.
    + rewrite !relieve_repetition_cons by exact Hp.
      rewrite !relieve_step_length, Ha, Hb.
      now rewrite relieve_step_comm.
    + rewrite relieve_repetition_cons by exact Hp.
      rewrite relieve_step_length, Hb.
      apply py_index_error in Hb. now subst.
    + rewrite relieve_repetition_cons by exact Hp.
      rewrite relieve_step_length, Ha.
      apply py_index_error in Ha. now subst.
    + apply py_index_error in Ha, Hb. now subst.
  - now rewrite IH1, IH2.
Qed.

Lemma relieve_repetition_window_order_irrelevant_witness :
  2 <> 0 /\ Permutation [0%Z; 1%Z] [1%Z; 0%Z]
  /\ relieve_repetition [1; 1] [0%Z; 1%Z] 2
     = relieve_repetition [1; 1] [1%Z; 0%Z] 2.
Proof.
  assert (H1 : 2 <> 0) by lra.
  assert (H2 : Permutation [0%Z; 1%Z] [1%Z; 0%Z]) by apply perm_swap.
  split; [exact H1 |]. split; [exact H2 |].
  exact (relieve_repetition_window_order_irrelevant 2 _ _ H1 H2 [1; 1]).
Defined.

(** X10.  A token id outside [-n, n) anywhere in the window makes
    [relieve_repetition] raise IndexError (for a penalty other than 0). *)
Theorem relieve_repetition_out_of_range_raises :
  forall (penalty : R) (recent : list Z) (ws : list R) (t : Z),
    penalty <> 0 -> In t recent ->
    (t < - Z.of_nat (List.length ws) \/ Z.of_nat (List.length ws) <= t)%Z ->
    relieve_repetition ws recent penalty = Err IndexError.
Proof.
  intros penalty recent ws t Hp. revert ws.
  induction recent as [| a rest IH]; intros ws Hin Hout; [contradiction |].
  rewrite relieve_repetition_cons by exact Hp.
  destruct (py_index (List.length ws) a) as [i | e] eqn:Ha.
  - destruct Hin as [-> | Hin].
    + exfalso. unfold py_index in Ha.
      destruct (Z.leb_spec 0 t); [destruct (Z.ltb_spec t (Z.of_nat (List.length ws))) |
                                  destruct (Z.leb_spec (- Z.of_nat (List.length ws)) t)];
        try discriminate; lia.
    + apply IH; [exact Hin |]. now rewrite relieve_step_length.
  - apply py_index_error in Ha. now subst.
Qed.

Lemma relieve_repetition_out_of_range_raises_witness :
  2 <> 0 /\ In 2%Z [0%Z; 2%Z]
  /\ (2 < - Z.of_nat (List.length [1; 1])
      \/ Z.of_nat (List.length [1; 1]) <= 2)%Z
  /\ relieve_repetition [1; 1] [0%Z; 2%Z] 2 = Err IndexError.
Proof.
  assert (H1 : 2 <> 0) by lra.
  assert (H2 : In 2%Z [0%Z; 2%Z]) by (right; now left).
  assert (H3 : (2 < - Z.of_nat (List.length [1; 1])
                \/ Z.of_nat (List.length [1; 1]) <= 2)%Z) by (right; simpl; lia).
  split; [exact H1 |]. split; [exact H2 |]. split; [exact H3 |].
  exact (relieve_repetition_out_of_range_raises 2 _ [1; 1] 2%Z H1 H2 H3).
Defined.

(** X11.  Penalising with a window in two parts is penalising with the
    first part and then, on the result, with the second. *)
Theorem relieve_repetition_app :
  forall (penalty : R) (recent1 recent2 : list Z) (ws : list R),
    relieve_repetition ws (recent1 ++ recent2) penalty
    = match relieve_repetition ws recent1 penalty with
      | Ok ws' => relieve_repetition ws' recent2 penalty
      | Err e => Err e
      end.
Proof.
  intros penalty recent1 recent2.
  induction recent1 as [| t rest IH]; intros ws; [reflexivity |].
  simpl. destruct (py_index (List.length ws) t) as [i | e]; [| reflexivity].
  destruct (Rltb 0 (nth i ws 0)); [| apply IH].
  destruct (Req_dec_T penalty 0); [reflexivity | apply IH].
Qed.

(** X12.  A negative token id counts from the end of the vocabulary: the id
    [t] in [-n, 0) penalises the entry [n + t]. *)
Theorem relieve_repetition_negative_index :
  forall (penalty : R) (ws : list R) (t : Z) (rest : list Z),
    (- Z.of_nat (List.length ws) <= t < 0)%Z ->
    relieve_repetition ws (t :: rest) penalty
    = relieve_repetition ws ((Z.of_nat (List.length ws) + t)%Z :: rest) penalty.
Proof.
  intros penalty ws t rest [Hlo Hhi]. simpl.
  assert (E : py_index (List.length ws) t
              = py_index (List.length ws) (Z.of_nat (List.length ws) + t)).
  { unfold py_index.
    destruct (Z.leb_spec 0 t); [lia |].
    destruct (Z.leb_spec (- Z.of_nat (List.length ws)) t); [| lia].
    destruct (Z.leb_spec 0 (Z.of_nat (List.length ws) + t)); [| lia].
    destruct (Z.ltb_spec (Z.of_nat (List.length ws) + t) (Z.of_nat (List.length ws)));
      [reflexivity | lia]. }
  now rewrite E.
Qed.

(** ** The score transform on positive weights *)


















(** ** The hooks on a token *)




Lemma tensor_div_one : tensor_div [1] (tensor_sum [1]) = Ok [1].
Proof.
  unfold tensor_div. simpl.
  destruct (Req_dec_T _ 0) as [E | _]; [lra |].
  do 2 f_equal. replace (1 + 0) with 1 by lra. lra.
Qed.

Lemma tensor_pow_one (e : R) : tensor_pow [1] e = Ok [1].
Proof.
  simpl. unfold float_pow.
  destruct (Rlt_dec 0 1) as [_ | H]; [| lra].
  rewrite Rpower_one_base. reflexivity.
Qed.

(** With the single weight 1 the selected tensor is [1.0], which compares
    equal to the allowed id 1: the hook keeps it and a token is returned. *)
Lemma top_p_single_with_chord :
  @top_p_sampling_with_constraints two_notes [1] [] 0.85 1 (Some "C"%string)
                                   None [] zero_state
  = Ok (0%nat, advance_torch zero_state).
Proof.
  unfold top_p_sampling_with_constraints.
  step by (destruct (Req_dec_T 1 0); [lra | reflexivity]).
  step by (apply lift_Ok, tensor_pow_one).
  step by (apply lift_Ok, tensor_div_one).
  step by (apply lift_Ok; reflexivity).
  assert (Hs : sort_desc Rltb [1] = [(1, 0%nat)]) by reflexivity.
  rewrite Hs. simpl map.
  assert (Hc : first_where (fun c => Rleb 0.85 c) (cumsum [1]) = Ok 0%nat).
  { unfold first_where, cumsum. simpl. rewrite Rleb_true by lra. reflexivity. }
  step by (apply lift_Ok, Hc).
  simpl firstn. simpl truthy. cbv iota.
  assert (Hk : @keep_harmony two_notes (Tensor [1]) "C" zero_state
               = Ok (Tensor [1], zero_state)).
  { unfold keep_harmony. simpl. unfold bind, lift, Reqb. simpl.
    destruct (Req_dec_T 1 0) as [E | _]; [lra |].
    destruct (Req_dec_T 1 1) as [_ | N]; [reflexivity | congruence]. }
  step by (exact Hk).
  step by (reflexivity).
  assert (Hn : normalize (Tensor [1]) = Ok [1]) by apply tensor_div_one.
  step by (apply lift_Ok, Hn).
  apply random_sampling_zero_draw; [discriminate | reflexivity].
Qed.

(** X2.  With a uniform variate in (0, 1], [random_sampling] never returns
    a token whose score is -inf. *)
Theorem random_sampling_never_draws_masked :
  forall (ws : list score) (d : list Z) (s s' : RandomState) (id : nat),
    0 < torch_stream s 0 <= 1 ->
    random_sampling ws d s = Ok (id, s') ->
    (id < List.length ws)%nat /\ nth id ws NegInf <> NegInf.
Proof.
  intros ws d s s' id Hu H.
  split; [now apply random_sampling_bound in H |].
  destruct (random_sampling_draws_finite ws d s s' id Hu H) as [r Hr].
  rewrite (nth_error_nth _ _ _ Hr). discriminate.
Qed.

Lemma random_sampling_never_draws_masked_witness :
  0 < torch_stream half_state 0 <= 1
  /\ random_sampling [Fin 0] [] half_state = Ok (0%nat, advance_torch half_state)
  /\ (0 < List.length [Fin 0])%nat /\ nth 0 [Fin 0] NegInf <> NegInf.
Proof.
  assert (Hu : 0 < torch_stream half_state 0 <= 1) by (simpl; lra).
  pose proof (random_sampling_single_any [] half_state) as H.
  split; [exact Hu |]. split; [exact H |].
  exact (random_sampling_never_draws_masked [Fin 0] [] half_state
           (advance_torch half_state) 0%nat Hu H).
Defined.

Lemma relieve_repetition_negative_index_witness :
  (- Z.of_nat (List.length [1; 1]) <= -1 < 0)%Z
  /\ relieve_repetition [1; 1] [(-1)%Z] 2
     = relieve_repetition [1; 1] [(Z.of_nat (List.length [1; 1]) + -1)%Z] 2.
Proof.
  assert (H : (- Z.of_nat (List.length [1; 1]) <= -1 < 0)%Z) by (simpl; lia).
  split; [exact H |].
  exact (relieve_repetition_negative_index 2 [1; 1] (-1)%Z [] H).
Defined.

Lemma constraint_context_selects_nothing_witness :
  @top_p_sampling_with_constraints two_notes [1] [] 0.85 1 (Some "C"%string)
                                   None [] zero_state
  = Ok (0%nat, advance_torch zero_state)
  /\ @top_p_sampling_with_constraints two_notes [1] [] 0.85 1 None None []
                                      zero_state
     = Ok (0%nat, advance_torch zero_state).
Proof.
  split; [exact top_p_single_with_chord |].
  exact (@constraint_context_selects_nothing two_notes [1] [] 0.85 1
           (Some "C"%string) None [] zero_state 0%nat
           (advance_torch zero_state) top_p_single_with_chord).
Defined.

(** * The remaining utilities *)

(** ** Padding *)



Lemma skipn_repeat {A} (x : A) (n k : nat) :
  skipn k (repeat x n) = repeat x (n - k).
Proof.
  revert k. induction n as [| n IH]; intros [| k]; simpl; try reflexivity.
  apply IH.
Qed.

Lemma set_nth_middle {A} (l1 l2 : list A) (x v : A) :
  set_nth (List.length l1) v (l1 ++ x :: l2) = l1 ++ v :: l2.
Proof.
  induction l1 as [| a l1 IH]; simpl; [reflexivity |]. now rewrite IH.
Qed.

Lemma firstn_succ_nth {A} (l : list A) (k : nat) (d : A) :
  (k < List.length l)%nat -> firstn (S k) l = firstn k l ++ [nth k l d].
Proof.
  revert k. induction l as [| a l IH]; intros [| k] H; simpl in *; try lia.
  - reflexivity.
  - f_equal. apply IH. lia.
Qed.

(** The loop of [pad_list], after its first [k] iterations. *)
Lemma pad_list_loop (xs : list (list R)) (row : list R) (k : nat) :
  (k <= List.length xs)%nat ->
  fold_left
    (fun res i => set_nth i (assign_prefix (nth i res []) (nth i xs [])) res)
    (seq 0 k) (repeat row (List.length xs))
  = map (assign_prefix row) (firstn k xs) ++ repeat row (List.length xs - k).
Proof.
  induction k as [| k IH]; intros Hk.
  - simpl. now rewrite Nat.sub_0_r.
  - rewrite seq_S, fold_left_app, IH by lia.
    rewrite Nat.add_0_l. cbn [fold_left].
    assert (Hlen : List.length (map (assign_prefix row) (firstn k xs)) = k).
    { rewrite length_map, length_firstn. lia. }
    replace (List.length xs - k)%nat with (S (List.length xs - S k)) by lia.
    cbn [repeat].
    rewrite <- Hlen at 1 2.
    rewrite nth_middle, set_nth_middle.
    rewrite (firstn_succ_nth xs k []) by lia.
    rewrite map_app. cbn [map]. rewrite <- app_assoc. reflexivity.
Qed.

Lemma max_len_bound (xs : list (list R)) (x : list R) :
  In x xs -> (List.length x <= max_len xs)%nat.
Proof.
  unfold max_len. induction xs as [| y xs IH]; intros H; [contradiction |].
  simpl. destruct H as [-> | H]; [lia |]. specialize (IH H). lia.
Qed.

Lemma max_len_attained (xs : list (list R)) :
  xs <> [] -> exists x, In x xs /\ List.length x = max_len xs.
Proof.
  unfold max_len. induction xs as [| y xs IH]; intros H; [congruence |].
  destruct xs as [| z xs'].
  - exists y. split; [now left |]. simpl. lia.
  - destruct (IH ltac:(discriminate)) as (x & Hx & Hlen).
    change (fold_right Nat.max 0%nat (map (@List.length R) (y :: z :: xs')))
      with (Nat.max (List.length y)
                    (fold_right Nat.max 0%nat (map (@List.length R) (z :: xs')))).
    destruct (Nat.max_spec (List.length y)
                (fold_right Nat.max 0%nat (map (@List.length R) (z :: xs'))))
      as [[_ ->] | [_ ->]].
    + exists x. split; [now right | exact Hlen].
    + exists y. split; [now left | reflexivity].
Qed.

(** What [pad_list] computes. *)
Lemma pad_list_rows (xs : list (list R)) (pad_value : R) :
  xs <> [] ->
  pad_list xs pad_value
  = Done (map (fun x => x ++ repeat pad_value (max_len xs - List.length x)) xs).
Proof.
  intros Hne. unfold pad_list. destruct xs as [| x0 xs']; [congruence |].
  set (xs := x0 :: xs') in *. cbv zeta. f_equal.
  fold (max_len xs).
  rewrite (pad_list_loop xs (repeat pad_value (max_len xs)) (List.length xs))
    by lia.
  rewrite firstn_all, Nat.sub_diag, app_nil_r.
  apply map_ext. intros x. unfold assign_prefix. now rewrite skipn_repeat.
Qed.

(** X18.  [pad_list] raises ValueError on an empty batch; otherwise the
    result has one row per sequence, every row has the length of the
    longest sequence, starts with its sequence and holds [pad_value]
    after it. *)
Theorem pad_list_pads_to_the_longest :
  forall (xs : list (list R)) (pad_value : R),
    (xs = [] -> pad_list xs pad_value = Raised ValueError)
    /\ (xs <> [] ->
        exists res,
          pad_list xs pad_value = Done res
          /\ List.length res = List.length xs
          /\ (exists x, In x xs /\ List.length x = max_len xs)
          /\ forall i, (i < List.length xs)%nat ->
               let x := nth i xs [] in
               let row := nth i res [] in
               List.length row = max_len xs
               /\ firstn (List.length x) row = x
               /\ forall j, (List.length x <= j < max_len xs)%nat ->
                            nth j row 0 = pad_value).
Proof.
  intros xs pad_value. split; [intros ->; reflexivity |].
  intros Hne. eexists. split; [apply pad_list_rows; exact Hne |].
  split; [apply length_map |]. split; [now apply max_len_attained |].
  intros i Hi x row.
  assert (Hrow : row = x ++ repeat pad_value (max_len xs - List.length x)).
  { unfold row, x.
    rewrite (nth_indep _ [] ((fun x => x ++ repeat pad_value
                                (max_len xs - List.length x)) []))
      by (now rewrite length_map).
    now rewrite (map_nth (fun x => x ++ repeat pad_value (max_len xs - List.length x))). }
  assert (Hx : (List.length x <= max_len xs)%nat)
    by (apply max_len_bound; now apply nth_In).
  rewrite Hrow. split; [| split].
  - rewrite length_app, repeat_length. lia.
  - rewrite firstn_app, Nat.sub_diag, firstn_all. simpl. apply app_nil_r.
  - intros j Hj. rewrite app_nth2 by lia.
    apply nth_repeat_lt. lia.
Qed.

Lemma pad_list_pads_to_the_longest_witness :
  @nil (list R) = [] /\ pad_list [] 0 = Raised ValueError
  /\ [[1; 2]; [3]] <> []
  /\ exists res, pad_list [[1; 2]; [3]] 0 = Done res
                 /\ List.length res = List.length [[1; 2]; [3]].
Proof.
  assert (H1 : @nil (list R) = []) by reflexivity.
  assert (H2 : [[1; 2]; [3]] <> []) by discriminate.
  split; [exact H1 |].
  split; [exact (proj1 (pad_list_pads_to_the_longest [] 0) H1) |].
  split; [exact H2 |].
  destruct (proj2 (pad_list_pads_to_the_longest [[1; 2]; [3]] 0) H2)
    as (res & Hres & Hlen & _).
  exists res. split; assumption.
Defined.

(** X19.  Cutting every row of [pad_list]'s result to the length of its
    sequence gives the batch back, and a batch of sequences of one length
    is returned unchanged. *)
Theorem pad_list_round_trip :
  forall (xs : list (list R)) (pad_value : R),
    xs <> [] ->
    exists res,
      pad_list xs pad_value = Done res
      /\ map (fun xr => firstn (List.length (fst xr)) (snd xr)) (combine xs res) = xs
      /\ ((forall x, In x xs -> List.length x = max_len xs) -> res = xs).
Proof.
  intros xs pad_value Hne. eexists. split; [apply pad_list_rows; exact Hne |].
  split.
  - generalize (max_len xs). intros m.
    induction xs as [| x xs IH]; [reflexivity |].
    simpl. rewrite firstn_app, Nat.sub_diag, firstn_all. simpl.
    rewrite app_nil_r. f_equal.
    destruct xs as [| y xs']; [reflexivity |]. apply IH. discriminate.
  - intros Hall. rewrite <- (map_id xs) at 2. apply map_ext_in.
    intros x Hx. rewrite (Hall x Hx), Nat.sub_diag. apply app_nil_r.
Qed.

Lemma pad_list_round_trip_witness :
  [[1; 2]; [3]] <> []
  /\ exists res,
      pad_list [[1; 2]; [3]] 0 = Done res
      /\ map (fun xr => firstn (List.length (fst xr)) (snd xr))
             (combine [[1; 2]; [3]] res) = [[1; 2]; [3]].
Proof.
  assert (H : [[1; 2]; [3]] <> []) by discriminate.
  split; [exact H |].
  destruct (pad_list_round_trip [[1; 2]; [3]] 0 H) as (res & H1 & H2 & _).
  exists res. split; assumption.
Defined.

(** ** Masks and accuracy *)

Lemma finfo_min_negative (d : dtype) : bias_dtype d = true -> finfo_min d < 0.
Proof.
  assert (H127 : 0 < 2 ^ 127) by (apply pow_lt; lra).
  assert (H23 : 1 <= 2 ^ 23) by (apply pow_R1_Rle; lra).
  assert (H7 : 1 <= 2 ^ 7) by (apply pow_R1_Rle; lra).
  assert (Hi23 : / 2 ^ 23 <= 1).
  { rewrite <- Rinv_1. apply Rinv_le_contravar; lra. }
  assert (Hi7 : / 2 ^ 7 <= 1).
  { rewrite <- Rinv_1. apply Rinv_le_contravar; lra. }
  destruct d; simpl; intros H; try discriminate; try nra; lra.
Qed.

(** X20.  [mask_to_bias] accepts a boolean mask and one of float32,
    bfloat16, float16, and raises AssertionError otherwise; the bias is 0
    where the mask is true and [finfo(dtype).min] elsewhere, it is never
    positive, and [bias == 0] gives the mask back. *)
Theorem mask_to_bias_encodes_the_mask :
  forall (mask : typed_tensor) (d : dtype),
    match mask with
    | BoolTensor values =>
        if bias_dtype d then
          exists bias,
            mask_to_bias mask d = Done bias
            /\ map (fun x => Reqb x 0) bias = values
            /\ Forall2 (fun (b : bool) x => x = if b then 0 else finfo_min d)
                       values bias
            /\ Forall (fun x => x <= 0) bias
        else mask_to_bias mask d = Raised AssertionError
    | NumTensor _ _ => mask_to_bias mask d = Raised AssertionError
    end.
Proof.
  intros [values | d' values] d; [| reflexivity].
  destruct (bias_dtype d) eqn:Hd; [| unfold mask_to_bias; now rewrite Hd].
  pose proof (finfo_min_negative d Hd) as Hneg.
  eexists. unfold mask_to_bias. rewrite Hd. split; [reflexivity |].
  split; [| split].
  - rewrite map_map. rewrite <- (map_id values) at 2. apply map_ext.
    intros [|]; unfold Reqb.
    + destruct (Req_dec_T _ 0) as [_ | N]; [reflexivity | exfalso; apply N; lra].
    + destruct (Req_dec_T _ 0) as [E | _]; [exfalso; lra | reflexivity].
  - induction values as [| b values IH]; simpl; constructor; [| exact IH].
    destruct b; lra.
  - apply Forall_forall. intros x Hx. apply in_map_iff in Hx.
    destruct Hx as ([|] & <- & _); lra.
Qed.

Lemma argmax_from_spec (row : list R) :
  forall (best_i : nat) (best : R) (i : nat),
    (best_i < i)%nat ->
    let r := argmax_from best_i best i row in
    let value := fun k => if (k =? best_i)%nat then best else nth (k - i) row 0 in
    (r = best_i \/ (i <= r < i + List.length row)%nat)
    /\ best <= value r
    /\ (forall j, (j < List.length row)%nat ->
          nth j row 0 <= value r
          /\ ((i + j < r)%nat -> nth j row 0 < value r))
    /\ (r <> best_i -> best < value r).
Proof.
  induction row as [| x row IH]; intros best_i best i Hlt; simpl.
  - rewrite Nat.eqb_refl. split; [now left |]. split; [lra |].
    split; [intros j Hj; lia | congruence].
  - destruct (Rltb best x) eqn:E.
    + apply Rltb_spec in E.
      destruct (IH i x (S i) ltac:(lia)) as (Hr & Hb & Hall & Hne).
      set (r := argmax_from i x (S i) row) in *.
      assert (Hri : (r =? best_i)%nat = false).
      { apply Nat.eqb_neq. destruct Hr as [-> | Hr]; lia. }
      rewrite Hri.
      assert (Hval : (if (r =? i)%nat then x else nth (r - S i) row 0)
                     = match (r - i)%nat with 0%nat => x | S m => nth m row 0 end).
      { destruct Hr as [-> | Hr].
        - rewrite Nat.eqb_refl, Nat.sub_diag. reflexivity.
        - replace (r =? i)%nat with false by (symmetry; apply Nat.eqb_neq; lia).
          replace (r - i)%nat with (S (r - S i)) by lia. reflexivity. }
      rewrite Hval in *.
      split; [right; destruct Hr as [-> | Hr]; lia |].
      split; [lra |]. split.
      * intros [| j] Hj.
        -- split; [exact Hb |]. intros Hlt0. apply Hne. lia.
        -- destruct (Hall j ltac:(lia)) as [H1 H2]. split; [exact H1 |].
           intros Hlt'. apply H2. lia.
      * intros _. lra.
    + assert (Hle : x <= best).
      { unfold Rltb in E. destruct (Rlt_dec best x); [discriminate | lra]. }
      destruct (IH best_i best (S i) ltac:(lia)) as (Hr & Hb & Hall & Hne).
      set (r := argmax_from best_i best (S i) row) in *.
      assert (Hval : (if (r =? best_i)%nat then best else nth (r - S i) row 0)
                     = if (r =? best_i)%nat then best
                       else match (r - i)%nat with 0%nat => x | S m => nth m row 0 end).
      { destruct (r =? best_i)%nat eqn:Er; [reflexivity |].
        apply Nat.eqb_neq in Er. destruct Hr as [-> | Hr]; [congruence |].
        replace (r - i)%nat with (S (r - S i)) by lia. reflexivity. }
      rewrite Hval in *.
      split; [destruct Hr as [-> | Hr]; [now left | right; lia] |].
      split; [exact Hb |]. split.
      * intros [| j] Hj.
        -- split; [lra |]. intros Hlt0.
           assert (r <> best_i) by lia. specialize (Hne H). lra.
        -- destruct (Hall j ltac:(lia)) as [H1 H2]. split; [exact H1 |].
           intros Hlt'. apply H2. lia.
      * exact Hne.
Qed.

(** X21.  The prediction [th_accuracy] takes from a row of scores is the
    position of its maximum, the first one among ties. *)
Theorem argmax_is_first_maximum :
  forall row : list R,
    row <> [] ->
    (argmax row < List.length row)%nat
    /\ forall j, (j < List.length row)%nat ->
         nth j row 0 <= nth (argmax row) row 0
         /\ ((j < argmax row)%nat -> nth j row 0 < nth (argmax row) row 0).
Proof.
  intros [| x row] Hne; [congruence |].
  unfold argmax.
  destruct (argmax_from_spec row 0 x 1 ltac:(lia)) as (Hr & Hb & Hall & Hne').
  set (r := argmax_from 0 x 1 row) in *. cbv zeta in *.
  assert (Hval : (if (r =? 0)%nat then x else nth (r - 1) row 0)
                 = nth r (x :: row) 0).
  { destruct r as [| r']; [reflexivity |]. simpl. now rewrite Nat.sub_0_r. }
  rewrite Hval in *.
  split; [simpl; destruct Hr as [-> | Hr]; lia |].
  intros [| j] Hj.
  - split; [exact Hb |]. intros H0. apply Hne'. lia.
  - simpl in Hj. destruct (Hall j ltac:(lia)) as [H1 H2].
    split; [exact H1 |]. intros Hlt. apply H2. lia.
Qed.

Lemma argmax_is_first_maximum_witness :
  [1; 3; 3] <> @nil R
  /\ (argmax [1%R; 3%R; 3%R] < List.length [1%R; 3%R; 3%R])%nat
  /\ forall j, (j < List.length [1%R; 3%R; 3%R])%nat ->
       nth j [1; 3; 3] 0 <= nth (argmax [1; 3; 3]) [1; 3; 3] 0.
Proof.
  assert (H : [1; 3; 3] <> @nil R) by discriminate.
  split; [exact H |].
  destruct (argmax_is_first_maximum [1; 3; 3] H) as [H1 H2].
  split; [exact H1 |]. intros j Hj. exact (proj1 (H2 j Hj)).
Defined.

Lemma count_hits_le (ignore_label : Z) (preds : list nat) (targets : list Z) :
  (fst (count_hits ignore_label preds targets)
   <= snd (count_hits ignore_label preds targets))%nat.
Proof.
  revert targets. induction preds as [| p preds IH]; intros [| t targets];
    simpl; try lia.
  specialize (IH targets).
  destruct (count_hits ignore_label preds targets) as [n m]. simpl in IH.
  destruct (t =? ignore_label)%Z; [simpl; lia |].
  destruct (Z.of_nat p =? t)%Z; simpl; lia.
Qed.

(** Without a counted position every target is the ignore label. *)
Lemma count_hits_zero (ignore_label : Z) (preds : list nat) (targets : list Z) :
  List.length preds = List.length targets ->
  (snd (count_hits ignore_label preds targets) = 0%nat
   <-> Forall (fun t => t = ignore_label) targets).
Proof.
  revert targets. induction preds as [| p preds IH]; intros [| t targets] Hlen;
    simpl in *; try discriminate.
  - split; [constructor | reflexivity].
  - specialize (IH targets ltac:(lia)).
    destruct (count_hits ignore_label preds targets) as [n m]. simpl in IH.
    destruct (Z.eqb_spec t ignore_label) as [-> | Hne].
    + simpl. rewrite IH. split; [now constructor | now inversion 1].
    + destruct (Z.of_nat p =? t)%Z; simpl; (split; [lia |]);
        inversion 1; congruence.
Qed.

(** All counted positions are hits exactly when every prediction at a
    target that is not ignored equals the target. *)
Lemma count_hits_all (ignore_label : Z) (preds : list nat) (targets : list Z) :
  List.length preds = List.length targets ->
  (fst (count_hits ignore_label preds targets)
   = snd (count_hits ignore_label preds targets)
   <-> Forall2 (fun p t => t <> ignore_label -> Z.of_nat p = t) preds targets).
Proof.
  revert targets. induction preds as [| p preds IH]; intros [| t targets] Hlen;
    simpl in *; try discriminate.
  - split; [constructor | reflexivity].
  - specialize (IH targets ltac:(lia)).
    pose proof (count_hits_le ignore_label preds targets) as Hle.
    destruct (count_hits ignore_label preds targets) as [n m]. simpl in *.
    destruct (Z.eqb_spec t ignore_label) as [-> | Hne].
    + simpl. rewrite IH. split.
      * intros H. constructor; [congruence | exact H].
      * now inversion 1.
    + destruct (Z.eqb_spec (Z.of_nat p) t) as [E | N]; simpl.
      * split.
        -- intros H. constructor; [intros _; exact E | apply IH; lia].
        -- inversion 1; subst. f_equal. now apply IH.
      * split; [lia |]. inversion 1; subst. exfalso. apply N. auto.
Qed.

Lemma concat_length_well_shaped {A} (m : matrix A) :
  well_shaped m ->
  List.length (concat (mrows m)) = (List.length (mrows m) * mcols m)%nat.
Proof.
  unfold well_shaped. induction 1 as [| r rows Hr _ IH]; simpl; [reflexivity |].
  rewrite length_app, Hr, IH. reflexivity.
Qed.

(** [th_accuracy] once the shapes agree. *)
Lemma th_accuracy_counts (pad_outputs : matrix R) (pad_targets : matrix Z)
      (ignore_label : Z) :
  mcols pad_outputs <> 0%nat ->
  List.length (mrows pad_outputs)
  = (List.length (mrows pad_targets) * mcols pad_targets)%nat ->
  th_accuracy pad_outputs pad_targets ignore_label
  = let (numerator, denominator) :=
      count_hits ignore_label (map argmax (mrows pad_outputs))
                 (concat (mrows pad_targets)) in
    Done (if (denominator =? 0)%nat then NaN
          else Value (INR numerator / INR denominator)).
Proof.
  intros Hd Hn. unfold th_accuracy.
  rewrite Hn, Nat.eqb_refl. simpl negb. cbv iota.
  destruct (Nat.eqb_spec (mcols pad_outputs) 0) as [E | _]; [contradiction |].
  reflexivity.
Qed.

(** X22.  [th_accuracy] raises when the number of scores does not fit the
    shape of the targets, or when there is no class; a number it returns
    lies between 0 and 1. *)
Theorem th_accuracy_is_a_fraction :
  forall (pad_outputs : matrix R) (pad_targets : matrix Z) (ignore_label : Z),
    let n := List.length (mrows pad_outputs) in
    let d := mcols pad_outputs in
    let b := List.length (mrows pad_targets) in
    let lmax := mcols pad_targets in
    ((n * d <> b * lmax * d)%nat ->
     th_accuracy pad_outputs pad_targets ignore_label = Raised ViewError)
    /\ ((n * d = b * lmax * d)%nat -> d = 0%nat ->
        th_accuracy pad_outputs pad_targets ignore_label = Raised EmptyReduction)
    /\ (forall r, th_accuracy pad_outputs pad_targets ignore_label = Done (Value r) ->
                  0 <= r <= 1).
Proof.
  intros o t ig n d b lmax. unfold th_accuracy. fold n d b lmax.
  split; [| split].
  - intros H. apply Nat.eqb_neq in H. now rewrite H.
  - intros H ->. rewrite H, Nat.eqb_refl. reflexivity.
  - intros r. destruct (negb _); [discriminate |].
    destruct (d =? 0)%nat; [discriminate |].
    pose proof (count_hits_le ig (map argmax (mrows o)) (concat (mrows t))) as Hle.
    destruct (count_hits ig (map argmax (mrows o)) (concat (mrows t))) as [num den].
    simpl in Hle.
    destruct (Nat.eqb_spec den 0) as [| Hden]; [discriminate |].
    intros H. inversion H; subst r.
    assert (Hd : 0 < INR den) by (apply lt_0_INR; lia).
    pose proof (pos_INR num) as Hn. apply le_INR in Hle.
    split.
    + apply Rmult_le_pos; [exact Hn |]. left. now apply Rinv_0_lt_compat.
    + apply (Rmult_le_reg_r (INR den)); [exact Hd |].
      unfold Rdiv. rewrite Rmult_assoc, Rinv_l by lra. lra.
Qed.

Lemma th_accuracy_is_a_fraction_witness :
  (List.length (mrows one_output) * mcols one_output
   <> List.length (mrows two_targets) * mcols two_targets * mcols one_output)%nat
  /\ th_accuracy one_output two_targets (-1) = Raised ViewError.
Proof.
  assert (H : (List.length (mrows one_output) * mcols one_output
               <> List.length (mrows two_targets) * mcols two_targets
                  * mcols one_output)%nat)
    by (simpl; lia).
  split; [exact H |].
  exact (proj1 (th_accuracy_is_a_fraction one_output two_targets (-1)) H).
Defined.

(** X23.  On matching shapes [th_accuracy] is nan exactly when every
    target is the ignore label, and 1 exactly when some target is not
    and every prediction at such a target equals it. *)
Theorem th_accuracy_extremes :
  forall (pad_outputs : matrix R) (pad_targets : matrix Z) (ignore_label : Z),
    well_shaped pad_targets ->
    mcols pad_outputs <> 0%nat ->
    List.length (mrows pad_outputs)
    = (List.length (mrows pad_targets) * mcols pad_targets)%nat ->
    let preds := map argmax (mrows pad_outputs) in
    let targets := concat (mrows pad_targets) in
    (th_accuracy pad_outputs pad_targets ignore_label = Done NaN
     <-> Forall (fun t => t = ignore_label) targets)
    /\ (th_accuracy pad_outputs pad_targets ignore_label = Done (Value 1)
        <-> ~ Forall (fun t => t = ignore_label) targets
            /\ Forall2 (fun p t => t <> ignore_label -> Z.of_nat p = t)
                       preds targets).
Proof.
  intros o t ig Hwf Hd Hn preds targets.
  rewrite (th_accuracy_counts o t ig Hd Hn). fold preds targets.
  assert (Hlen : List.length preds = List.length targets).
  { unfold preds, targets. rewrite length_map, Hn.
    symmetry. now apply concat_length_well_shaped. }
  pose proof (count_hits_zero ig preds targets Hlen) as Hzero.
  pose proof (count_hits_all ig preds targets Hlen) as Hall.
  pose proof (count_hits_le ig preds targets) as Hle.
  destruct (count_hits ig preds targets) as [num den]. simpl in *.
  destruct (Nat.eqb_spec den 0) as [E | Hden].
  - split.
    + split; [intros _; now apply Hzero | reflexivity].
    + split; [discriminate |]. intros [Hno _]. exfalso. apply Hno. now apply Hzero.
  - assert (Hdpos : 0 < INR den) by (apply lt_0_INR; lia).
    split.
    + split; [discriminate |]. intros H. apply Hzero in H. contradiction.
    + split.
      * intros H. inversion H as [Hv].
        split; [intros Hig; apply Hzero in Hig; contradiction |].
        apply Hall. apply INR_eq.
        apply (Rmult_eq_compat_r (INR den)) in Hv.
        unfold Rdiv in Hv. rewrite Rmult_assoc, Rinv_l in Hv by lra. lra.
      * intros [_ Hf]. apply Hall in Hf. subst num.
        do 2 f_equal. unfold Rdiv. apply Rinv_r. lra.
Qed.

Lemma th_accuracy_extremes_witness :
  well_shaped two_targets /\ mcols two_outputs <> 0%nat
  /\ List.length (mrows two_outputs)
     = (List.length (mrows two_targets) * mcols two_targets)%nat
  /\ (th_accuracy two_outputs two_targets (-1) = Done NaN
      <-> Forall (fun x => x = (-1)%Z) (concat (mrows two_targets))).
Proof.
  assert (H1 : well_shaped two_targets) by (repeat constructor).
  assert (H2 : mcols two_outputs <> 0%nat) by (simpl; lia).
  assert (H3 : List.length (mrows two_outputs)
               = (List.length (mrows two_targets) * mcols two_targets)%nat)
    by reflexivity.
  split; [exact H1 |]. split; [exact H2 |]. split; [exact H3 |].
  exact (proj1 (th_accuracy_extremes two_outputs two_targets (-1) H1 H2 H3)).
Defined.

(** ** Cross-fading *)

Lemma broadcast_same (n : nat) : broadcast n n = Some n.
Proof. unfold broadcast. now rewrite Nat.eqb_refl. Qed.

Lemma at_size_below (m i : nat) : (i < m)%nat -> at_size m i = i.
Proof.
  intros H. unfold at_size. destruct (Nat.eqb_spec m 1); [lia | reflexivity].
Qed.

(** [fade_in_out] on tensors of one shape whose frames cover the overlap,
    with a window of even length. *)
Lemma fade_in_out_even_window (fade_in_mel fade_out_mel : tensor3)
      (window : list R) (overlap : nat) :
  List.length window = (2 * overlap)%nat -> (1 <= overlap)%nat ->
  (overlap <= dim2 fade_in_mel)%nat -> (overlap <= dim2 fade_out_mel)%nat ->
  dim0 fade_out_mel = dim0 fade_in_mel ->
  dim1 fade_out_mel = dim1 fade_in_mel ->
  exists out,
    fade_in_out fade_in_mel fade_out_mel window = Done out
    /\ dim0 out = dim0 fade_in_mel /\ dim1 out = dim1 fade_in_mel
    /\ dim2 out = dim2 fade_in_mel
    /\ forall b c i,
        (b < dim0 fade_in_mel)%nat -> (c < dim1 fade_in_mel)%nat ->
        entry out b c i
        = if (i <? overlap)%nat
          then entry fade_in_mel b c i * nth i window 0
               + entry fade_out_mel b c (dim2 fade_out_mel - overlap + i)
                 * nth (overlap + i) window 0
          else entry fade_in_mel b c i.
Proof.
  intros HW HL Hin Hout H0 H1.
  unfold fade_in_out.
  assert (EL : (List.length window / 2)%nat = overlap).
  { rewrite HW, Nat.mul_comm. apply Nat.div_mul. lia. }
  rewrite EL.
  replace (Nat.min overlap (dim2 fade_in_mel)) with overlap by lia.
  destruct (Nat.eqb_spec overlap 0) as [| _]; [lia |].
  replace (Nat.min overlap (dim2 fade_out_mel)) with overlap by lia.
  replace (List.length window - overlap)%nat with overlap by lia.
  rewrite !broadcast_same, H0, H1, !broadcast_same.
  unfold expands_to. rewrite !Nat.eqb_refl. simpl.
  eexists. split; [reflexivity |]. simpl.
  split; [reflexivity |]. split; [reflexivity |]. split; [reflexivity |].
  intros b c i Hb Hc.
  destruct (Nat.ltb_spec i overlap) as [Hi | _]; [| reflexivity].
  rewrite !(at_size_below overlap i Hi).
  rewrite (at_size_below (dim0 fade_in_mel) b Hb),
          (at_size_below (dim1 fade_in_mel) c Hc).
  reflexivity.
Qed.

(** X24.  On two tensors of one batch and channel size whose frames cover
    the overlap, and a window of even length [2 * overlap], [fade_in_out]
    keeps the shape of [fade_in_mel], replaces each of its first
    [overlap] frames by the frame times the rising half of the window
    plus the matching frame of the last [overlap] of [fade_out_mel]
    times the falling half, and keeps the other frames. *)
Theorem fade_in_out_cross_fades_the_overlap :
  forall (fade_in_mel fade_out_mel : tensor3) (window : list R) (overlap : nat),
    List.length window = (2 * overlap)%nat -> (1 <= overlap)%nat ->
    (overlap <= dim2 fade_in_mel)%nat -> (overlap <= dim2 fade_out_mel)%nat ->
    dim0 fade_out_mel = dim0 fade_in_mel ->
    dim1 fade_out_mel = dim1 fade_in_mel ->
    exists out,
      fade_in_out fade_in_mel fade_out_mel window = Done out
      /\ (dim0 out, dim1 out, dim2 out)
         = (dim0 fade_in_mel, dim1 fade_in_mel, dim2 fade_in_mel)
      /\ forall b c i,
          (b < dim0 fade_in_mel)%nat -> (c < dim1 fade_in_mel)%nat ->
          ((i < overlap)%nat ->
           entry out b c i
           = entry fade_in_mel b c i * nth i window 0
             + entry fade_out_mel b c (dim2 fade_out_mel - overlap + i)
               * nth (overlap + i) window 0)
          /\ ((overlap <= i)%nat -> entry out b c i = entry fade_in_mel b c i).
Proof.
  intros fi fo window L HW HL Hin Hout H0 H1.
  destruct (fade_in_out_even_window fi fo window L HW HL Hin Hout H0 H1)
    as (out & Hres & E0 & E1 & E2 & Hentry).
  exists out. split; [exact Hres |]. split; [now rewrite E0, E1, E2 |].
  intros b c i Hb Hc. rewrite (Hentry b c i Hb Hc). split; intros Hi.
  - destruct (Nat.ltb_spec i L); [reflexivity | lia].
  - destruct (Nat.ltb_spec i L); [lia | reflexivity].
Qed.

(** X25.  When the two halves of the window add up to 1 and lie in [0, 1],
    every cross-faded frame lies between the two frames it mixes, and
    equals them when they agree. *)
Theorem fade_in_out_is_a_convex_mix :
  forall (fade_in_mel fade_out_mel : tensor3) (window : list R) (overlap : nat),
    List.length window = (2 * overlap)%nat -> (1 <= overlap)%nat ->
    (overlap <= dim2 fade_in_mel)%nat -> (overlap <= dim2 fade_out_mel)%nat ->
    dim0 fade_out_mel = dim0 fade_in_mel ->
    dim1 fade_out_mel = dim1 fade_in_mel ->
    (forall i, (i < overlap)%nat ->
               0 <= nth i window 0 <= 1
               /\ nth (overlap + i) window 0 = 1 - nth i window 0) ->
    exists out,
      fade_in_out fade_in_mel fade_out_mel window = Done out
      /\ forall b c i,
          (b < dim0 fade_in_mel)%nat -> (c < dim1 fade_in_mel)%nat ->
          (i < overlap)%nat ->
          let x := entry fade_in_mel b c i in
          let y := entry fade_out_mel b c (dim2 fade_out_mel - overlap + i) in
          Rmin x y <= entry out b c i <= Rmax x y
          /\ (x = y -> entry out b c i = x).
Proof.
  intros fi fo window L HW HL Hin Hout H0 H1 Hwin.
  destruct (fade_in_out_even_window fi fo window L HW HL Hin Hout H0 H1)
    as (out & Hres & _ & _ & _ & Hentry).
  exists out. split; [exact Hres |].
  intros b c i Hb Hc Hi x y. rewrite (Hentry b c i Hb Hc).
  destruct (Nat.ltb_spec i L); [| lia].
  destruct (Hwin i Hi) as [[Hw0 Hw1] Hcomp]. rewrite Hcomp.
  fold x y. set (w := nth i window 0) in *.
  split.
  - unfold Rmin, Rmax. destruct (Rle_dec x y); split; nra.
  - intros ->. ring.
Qed.

(** X26.  [fade_in_out] raises on a window of odd length (the two halves
    differ in size), and on a window of fewer than 2 entries when
    [fade_out_mel] has 2 frames or more (its slice [-0:] is the whole
    axis). *)
Theorem fade_in_out_rejects_odd_and_short_windows :
  forall (fade_in_mel fade_out_mel : tensor3) (window : list R),
    let overlap := (List.length window / 2)%nat in
    ((Nat.odd (List.length window) = true /\ (1 <= overlap)%nat
      /\ (overlap <= dim2 fade_in_mel)%nat /\ (overlap <= dim2 fade_out_mel)%nat)
     \/ ((List.length window <= 1)%nat /\ (2 <= dim2 fade_out_mel)%nat)) ->
    fade_in_out fade_in_mel fade_out_mel window = Raised BroadcastError.
Proof.
  intros fi fo window L H. unfold fade_in_out. fold L.
  destruct H as [(Hodd & HL & Hin & Hout) | (Hshort & Hout)].
  - apply Nat.odd_spec in Hodd. destruct Hodd as [k Hk].
    assert (EL : L = k).
    { unfold L. rewrite Hk. rewrite Nat.mul_comm, Nat.div_add_l by lia.
      simpl. lia. }
    replace (Nat.min L (dim2 fi)) with L by lia.
    destruct (Nat.eqb_spec L 0) as [| _]; [lia |].
    replace (Nat.min L (dim2 fo)) with L by lia.
    replace (List.length window - L)%nat with (S L) by lia.
    rewrite broadcast_same. unfold broadcast at 1.
    destruct (Nat.eqb_spec L (S L)) as [| _]; [lia |].
    destruct (Nat.eqb_spec L 1) as [E1 | N1].
    + rewrite E1.
      destruct (broadcast (dim0 fi) (dim0 fo)); [| reflexivity].
      destruct (broadcast (dim1 fi) (dim1 fo)); [| reflexivity].
      simpl. rewrite !andb_false_r. reflexivity.
    + destruct (Nat.eqb_spec (S L) 1) as [| _]; [lia | reflexivity].
  - assert (EL : L = 0%nat).
    { unfold L. apply Nat.div_small. lia. }
    rewrite EL. simpl Nat.min. simpl Nat.eqb. cbv iota.
    rewrite Nat.sub_0_r.
    rewrite broadcast_same.
    assert (Hp2 : broadcast (dim2 fo) (List.length window)
                  = if (List.length window =? 1)%nat then Some (dim2 fo) else None).
    { unfold broadcast.
      destruct (Nat.eqb_spec (dim2 fo) (List.length window)); [lia |].
      destruct (Nat.eqb_spec (dim2 fo) 1); [lia | reflexivity]. }
    rewrite Hp2. destruct (List.length window =? 1)%nat; [| reflexivity].
    destruct (broadcast (dim0 fi) (dim0 fo)); [| reflexivity].
    destruct (broadcast (dim1 fi) (dim1 fo)); [| reflexivity].
    assert (Hr2 : broadcast 0 (dim2 fo) = None).
    { unfold broadcast.
      destruct (Nat.eqb_spec 0 (dim2 fo)); [lia |].
      destruct (Nat.eqb_spec (dim2 fo) 1); [lia | reflexivity]. }
    rewrite Hr2. reflexivity.
Qed.

Lemma fade_in_out_cross_fades_the_overlap_witness :
  List.length [1 / 2; 1 / 2] = (2 * 1)%nat /\ (1 <= 1)%nat
  /\ (1 <= dim2 low_mel)%nat /\ (1 <= dim2 high_mel)%nat
  /\ dim0 high_mel = dim0 low_mel /\ dim1 high_mel = dim1 low_mel
  /\ exists out, fade_in_out low_mel high_mel [1 / 2; 1 / 2] = Done out
                 /\ (dim0 out, dim1 out, dim2 out) = (1%nat, 1%nat, 2%nat).
Proof.
  assert (H1 : List.length [1 / 2; 1 / 2] = (2 * 1)%nat) by reflexivity.
  assert (H2 : (1 <= 1)%nat) by lia.
  assert (H3 : (1 <= dim2 low_mel)%nat) by (simpl; lia).
  assert (H4 : (1 <= dim2 high_mel)%nat) by (simpl; lia).
  assert (H5 : dim0 high_mel = dim0 low_mel) by reflexivity.
  assert (H6 : dim1 high_mel = dim1 low_mel) by reflexivity.
  split; [exact H1 |]. split; [exact H2 |]. split; [exact H3 |].
  split; [exact H4 |]. split; [exact H5 |]. split; [exact H6 |].
  destruct (fade_in_out_cross_fades_the_overlap low_mel high_mel
              [1 / 2; 1 / 2] 1 H1 H2 H3 H4 H5 H6) as (out & Hres & Hdim & _).
  exists out. split; [exact Hres | exact Hdim].
Defined.

Lemma fade_in_out_is_a_convex_mix_witness :
  List.length [1 / 2; 1 / 2] = (2 * 1)%nat /\ (1 <= 1)%nat
  /\ (1 <= dim2 low_mel)%nat /\ (1 <= dim2 high_mel)%nat
  /\ dim0 high_mel = dim0 low_mel /\ dim1 high_mel = dim1 low_mel
  /\ (forall i, (i < 1)%nat ->
                0 <= nth i [1 / 2; 1 / 2] 0 <= 1
                /\ nth (1 + i) [1 / 2; 1 / 2] 0 = 1 - nth i [1 / 2; 1 / 2] 0)
  /\ exists out, fade_in_out low_mel high_mel [1 / 2; 1 / 2] = Done out
                 /\ Rmin 1 3 <= entry out 0 0 0 <= Rmax 1 3.
Proof.
  assert (H1 : List.length [1 / 2; 1 / 2] = (2 * 1)%nat) by reflexivity.
  assert (H2 : (1 <= 1)%nat) by lia.
  assert (H3 : (1 <= dim2 low_mel)%nat) by (simpl; lia).
  assert (H4 : (1 <= dim2 high_mel)%nat) by (simpl; lia).
  assert (H5 : dim0 high_mel = dim0 low_mel) by reflexivity.
  assert (H6 : dim1 high_mel = dim1 low_mel) by reflexivity.
  assert (H7 : forall i, (i < 1)%nat ->
                0 <= nth i [1 / 2; 1 / 2] 0 <= 1
                /\ nth (1 + i) [1 / 2; 1 / 2] 0 = 1 - nth i [1 / 2; 1 / 2] 0).
  { intros [| i] Hi; [simpl; lra | lia]. }
  split; [exact H1 |]. split; [exact H2 |]. split; [exact H3 |].
  split; [exact H4 |]. split; [exact H5 |]. split; [exact H6 |].
  split; [exact H7 |].
  destruct (fade_in_out_is_a_convex_mix low_mel high_mel
              [1 / 2; 1 / 2] 1 H1 H2 H3 H4 H5 H6 H7) as (out & Hres & Hmix).
  exists out. split; [exact Hres |].
  exact (proj1 (Hmix 0%nat 0%nat 0%nat ltac:(simpl; lia) ltac:(simpl; lia)
                     ltac:(lia))).
Defined.

Lemma fade_in_out_rejects_odd_and_short_windows_witness :
  ((Nat.odd (List.length [1%R; 1%R; 1%R]) = true
    /\ (1 <= List.length [1%R; 1%R; 1%R] / 2)%nat
    /\ (List.length [1%R; 1%R; 1%R] / 2 <= dim2 low_mel)%nat
    /\ (List.length [1%R; 1%R; 1%R] / 2 <= dim2 high_mel)%nat)
   \/ ((List.length [1%R; 1%R; 1%R] <= 1)%nat /\ (2 <= dim2 high_mel)%nat))
  /\ fade_in_out low_mel high_mel [1; 1; 1] = Raised BroadcastError.
Proof.
  assert (H : (Nat.odd (List.length [1%R; 1%R; 1%R]) = true
               /\ (1 <= List.length [1%R; 1%R; 1%R] / 2)%nat
               /\ (List.length [1%R; 1%R; 1%R] / 2 <= dim2 low_mel)%nat
               /\ (List.length [1%R; 1%R; 1%R] / 2 <= dim2 high_mel)%nat)
              \/ ((List.length [1%R; 1%R; 1%R] <= 1)%nat /\ (2 <= dim2 high_mel)%nat)).
  { left. simpl. repeat split; lia. }
  split; [exact H |].
  exact (fade_in_out_rejects_odd_and_short_windows low_mel high_mel [1; 1; 1] H).
Defined.
